(** * Migration manager shell: reconciliation, cache, filter and selection

    A shallow embedding of [src/cli.ts] (classes [PerformanceCache] and
    [ModernMigrationShell]) and the properties of its natural-language
    specification.

    Conventions of the embedding:
    - a JavaScript string is the list of its UTF-16 code units ([list N]);
    - a JavaScript number that holds a time or a count is a [Z]
      (the program only forms integers there, exact below 2^53);
    - [Date.now()], the file system and the child processes are inputs of
      the operations that read them; every call to the outside is recorded
      in a trace of [IOEvent]s;
    - the terminal widgets (blessed) are not modelled: of the presentation
      only [selectedIndex], the filter, the search term and the log buffer
      are state of the model. *)

From Stdlib Require Import ZArith NArith List String Ascii Lia Bool Sorted Permutation DecimalString.
From Stdlib Require DecimalNat.
From stdpp Require Import gmap list fin_maps.

Local Open Scope Z_scope.

(** ** JavaScript strings *)

Abbreviation jsstring := (list N).

(** An ASCII literal as a JavaScript string. *)
Fixpoint str (s : string) : jsstring :=
  match s with
  | EmptyString => []
  | String a s' => N_of_ascii a :: str s'
  end.
Arguments str _%_string : simpl never.

(** [\d] *)
Definition isDigit (c : N) : bool := ((48 <=? c) && (c <=? 57))%N.

(** [\s]: WhiteSpace and LineTerminator code units of ECMAScript. *)
Definition isSpace (c : N) : bool :=
  ((9 <=? c) && (c <=? 13) || (c =? 32) || (c =? 160) || (c =? 5760)
   || (8192 <=? c) && (c <=? 8202) || (c =? 8232) || (c =? 8233)
   || (c =? 8239) || (c =? 8287) || (c =? 12288) || (c =? 65279))%N.

(** [\S] *)
Definition isNonSpace (c : N) : bool := negb (isSpace c).

(** [s.startsWith(p)] *)
Fixpoint startsWith (s p : jsstring) : bool :=
  match p, s with
  | [], _ => true
  | _ :: _, [] => false
  | x :: p', y :: s' => (x =? y)%N && startsWith s' p'
  end.

(** [s.includes(p)] *)
Fixpoint includes (s p : jsstring) : bool :=
  startsWith s p ||
  match s with
  | [] => false
  | _ :: s' => includes s' p
  end.

(** [s.endsWith(p)] *)
Definition endsWith (s p : jsstring) : bool :=
  (length p <=? length s)%nat && startsWith (drop (length s - length p) s) p.

(** [s.split(sep)] for a one-code-unit separator. *)
Fixpoint split (sep : N) (s : jsstring) : list jsstring :=
  match s with
  | [] => [[]]
  | c :: s' =>
      if (c =? sep)%N then [] :: split sep s'
      else match split sep s' with
           | l :: ls => (c :: l) :: ls
           | [] => [[c]]
           end
  end.

Fixpoint dropWhile (p : N → bool) (s : jsstring) : jsstring :=
  match s with
  | [] => []
  | c :: s' => if p c then dropWhile p s' else s
  end.

Fixpoint takeWhile (p : N → bool) (s : jsstring) : jsstring :=
  match s with
  | [] => []
  | c :: s' => if p c then c :: takeWhile p s' else []
  end.

(** [s.trim()] *)
Definition trim (s : jsstring) : jsstring :=
  rev (dropWhile isSpace (rev (dropWhile isSpace s))).

(** Truthiness of a string: [if (s)]. *)
Definition truthy (s : jsstring) : bool :=
  match s with [] => false | _ => true end.

(** [String(n)] for a non-negative integer. *)
Definition showNat (n : nat) : jsstring :=
  str (NilZero.string_of_uint (Nat.to_uint n)).

(** [parseInt(d)] on a run of decimal digits. *)
Definition parseInt (d : jsstring) : Z :=
  fold_left (fun acc c => 10 * acc + (Z.of_N c - 48)) d 0.

(** ** Regular expressions

    The fragment of ECMAScript regular expressions the program uses, with
    the backtracking semantics of the language: alternatives are tried left
    to right, quantifiers are greedy and give characters back one at a time.
    Every quantifier of the program is applied to a character class. *)

Inductive regex : Type :=
| Char (c : N)
| Class (p : N → bool)
| Seq (r1 r2 : regex)
| Or (r1 r2 : regex)
| Star (p : N → bool)
| Plus (p : N → bool)
| Group (r : regex)
| End.

Section Matcher.
Context {R : Type}.

Fixpoint star (p : N → bool) (s : jsstring) (k : jsstring → option R) : option R :=
  match s with
  | c :: s' =>
      if p c then
        match star p s' k with
        | Some r => Some r
        | None => k s
        end
      else k s
  | [] => k []
  end.

(** [run r s cap k]: match [r] at the head of [s]; [cap] is the current
    value of capture group 1 and [k] the rest of the pattern. *)
Fixpoint run (r : regex) (s : jsstring) (cap : option jsstring)
    (k : jsstring → option jsstring → option R) : option R :=
  match r with
  | Char c =>
      match s with
      | x :: s' => if (x =? c)%N then k s' cap else None
      | [] => None
      end
  | Class p =>
      match s with
      | x :: s' => if p x then k s' cap else None
      | [] => None
      end
  | Seq r1 r2 => run r1 s cap (fun s1 cap1 => run r2 s1 cap1 k)
  | Or r1 r2 =>
      match run r1 s cap k with
      | Some x => Some x
      | None => run r2 s cap k
      end
  | Star p => star p s (fun s' => k s' cap)
  | Plus p =>
      match s with
      | x :: s' => if p x then star p s' (fun s'' => k s'' cap) else None
      | [] => None
      end
  | Group r1 =>
      run r1 s cap (fun s' _ => k s' (Some (take (length s - length s') s)))
  | End =>
      match s with
      | [] => k [] cap
      | _ :: _ => None
      end
  end.
End Matcher.

(** The result of a match: where it starts, the input left after it and
    capture group 1. *)
Record MatchResult : Type := mkMatch {
  m_index : nat;
  m_rest : jsstring;
  m_group1 : option jsstring
}.

(** A match that starts at the head of [s] (a pattern that begins with [^]). *)
Definition matchAt (r : regex) (s : jsstring) : option MatchResult :=
  run r s None (fun s' cap => Some (mkMatch 0 s' cap)).

(** The leftmost match of [r] in [s]: [s.match(r)] without the [g] flag. *)
Fixpoint search (r : regex) (i : nat) (s : jsstring) : option MatchResult :=
  match run r s None (fun s' cap => Some (mkMatch i s' cap)) with
  | Some m => Some m
  | None =>
      match s with
      | [] => None
      | _ :: s' => search r (S i) s'
      end
  end.

(** [m?.[1]] *)
Definition group1 (m : option MatchResult) : option jsstring :=
  match m with
  | Some r => m_group1 r
  | None => None
  end.

(** [s.replace(r, '')] without the [g] flag: the leftmost match is cut out. *)
Definition replaceFirst (r : regex) (s : jsstring) : jsstring :=
  match search r 0 s with
  | Some m => take (m_index m) s ++ m_rest m
  | None => s
  end.

(** [s.replace(r, '')] with the [g] flag: every match is cut out, the search
    resuming after each one. [skip] counts the code units of the current
    match still to be dropped; an empty match keeps the code unit it stands
    before. *)
Fixpoint removeAllFrom (r : regex) (skip : nat) (s : jsstring) : jsstring :=
  match s with
  | [] => []
  | c :: s' =>
      match skip with
      | S n => removeAllFrom r n s'
      | O =>
          match matchAt r s with
          | Some m =>
              match (length s - length (m_rest m))%nat with
              | O => c :: removeAllFrom r 0 s'
              | S n => removeAllFrom r n s'
              end
          | None => c :: removeAllFrom r 0 s'
          end
      end
  end.

Definition removeAll (r : regex) (s : jsstring) : jsstring := removeAllFrom r 0 s.

(** The five patterns of the program. *)

(** [/^(\d+)/] (matched with [matchAt]) and [/(\d+)/] (matched with [search]). *)
Definition reDigits : regex := Group (Plus isDigit).

(** [/\.(ts|js)$/] *)
Definition reExtension : regex :=
  Seq (Char 46)
      (Seq (Group (Or (Seq (Char 116) (Char 115)) (Seq (Char 106) (Char 115)))) End).

(** The check mark U+2713. *)
Definition checkMark : N := 10003%N.

(** [/(?:\[X\]|✓)\s*\d+\s*(\S+)/] *)
Definition reApplied : regex :=
  Seq (Or (Seq (Char 91) (Seq (Char 88) (Char 93))) (Char checkMark))
      (Seq (Star isSpace)
           (Seq (Plus isDigit)
                (Seq (Star isSpace) (Group (Plus isNonSpace))))).

(** [/\u001b\[[0-9;]*m/g] *)
Definition reAnsi : regex :=
  Seq (Char 27)
      (Seq (Char 91)
           (Seq (Star (fun c => isDigit c || (c =? 59)%N)) (Char 109))).

(** ** Data model *)

Inductive Status : Type := pending | applied | failed.

#[global] Instance Status_eq_dec : EqDecision Status.
Proof. solve_decision. Defined.

(** [interface Migration] *)
Record Migration : Type := mkMigration {
  id : option Z;
  name : jsstring;
  timestamp : Z;
  status : Status;
  description : option jsstring;
  size : option jsstring;
  hash : option jsstring
}.

(** [migration.status = s] *)
Definition setStatus (s : Status) (m : Migration) : Migration :=
  {| id := id m; name := name m; timestamp := timestamp m; status := s;
     description := description m; size := size m; hash := hash m |}.

(** [interface DatabaseInfo] *)
Record DatabaseInfo : Type := mkDatabaseInfo {
  host : jsstring;
  database : jsstring;
  connected : bool;
  migrationsCount : Z;
  pendingCount : Z;
  lastCheck : Z
}.

(** [interface MigrationShellConfig]. The keys [create] and [generate] of
    [commands] are the ones the README of the package documents next to
    the three the interface declares; a configuration object may carry
    them. *)
Record ConfigCommands : Type := mkConfigCommands {
  cfg_showStatus : option jsstring;
  cfg_migrateUp : option jsstring;
  cfg_migrateDown : option jsstring;
  cfg_create : option jsstring;
  cfg_generate : option jsstring
}.

Record ConfigDatabase : Type := mkConfigDatabase {
  cfg_host : option jsstring;
  cfg_name : option jsstring
}.

Record MigrationShellConfig : Type := mkConfig {
  cfg_migrationsDir : option jsstring;
  cfg_autoRefreshInterval : option Z;
  cfg_commands : option ConfigCommands;
  cfg_database : option ConfigDatabase
}.

(** The field [commands] of the shell. *)
Record Commands : Type := mkCommands {
  showStatus : jsstring;
  migrateUp : jsstring;
  migrateDown : jsstring
}.

(** ** The TTL cache: [class PerformanceCache] (lines 51-86) *)

Module PerformanceCache.

(** [interface CacheEntry<T>] *)
Record CacheEntry (T : Type) : Type := mkEntry {
  data : T;
  timestamp : Z;
  ttl : Z
}.
Arguments mkEntry {T}.
Arguments data {T}.
Arguments timestamp {T}.
Arguments ttl {T}.

Definition DEFAULT_TTL : Z := 30000.

Section Ops.
Context {T : Type}.

(** [set(key, data, ttl = DEFAULT_TTL)] at clock reading [now]. *)
Definition set (key : jsstring) (d : T) (t : option Z) (now : Z)
    (cache : gmap jsstring (CacheEntry T)) : gmap jsstring (CacheEntry T) :=
  <[key := mkEntry d now (default DEFAULT_TTL t)]> cache.

(** [get(key)] at clock reading [now]: the value read ([None] is
    [null]) and the cache after the read. *)
Definition get (key : jsstring) (now : Z)
    (cache : gmap jsstring (CacheEntry T)) : option T * gmap jsstring (CacheEntry T) :=
  match cache !! key with
  | None => (None, cache)
  | Some entry =>
      if now - timestamp entry >? ttl entry
      then (None, delete key cache)
      else (Some (data entry), cache)
  end.

(** [clear()] *)
Definition clear (cache : gmap jsstring (CacheEntry T)) : gmap jsstring (CacheEntry T) := ∅.

(** [this.cache.keys()]; the order of the keys has no effect on what
    [invalidate] leaves. *)
Definition keys (cache : gmap jsstring (CacheEntry T)) : list jsstring :=
  (map_to_list cache).*1.

(** [invalidate(pattern)]: the loop over the keys. *)
Definition invalidate (pattern : jsstring)
    (cache : gmap jsstring (CacheEntry T)) : gmap jsstring (CacheEntry T) :=
  foldl (fun c key => if includes key pattern then delete key c else c)
        cache (keys cache).
End Ops.

End PerformanceCache.

(** ** The shell: [class ModernMigrationShell] *)

Inductive FilterStatus : Type := f_all | f_only (s : Status).

#[global] Instance FilterStatus_eq_dec : EqDecision FilterStatus.
Proof. solve_decision. Defined.

Inductive LogType : Type := info | success | warning | error.

#[global] Instance LogType_eq_dec : EqDecision LogType.
Proof. solve_decision. Defined.

(** One entry of [logBuffer]: the source renders it as a string with the
    wall-clock time and the colour of its type; the model keeps the type
    and the message. *)
Record LogEntry : Type := mkLog { log_type : LogType; log_message : jsstring }.

Definition MAX_LOG_ENTRIES : nat := 1000.

Record Shell : Type := mkShell {
  migrationsDir : jsstring;
  commands : Commands;
  migrations : list Migration;
  selectedIndex : Z;
  dbInfo : DatabaseInfo;
  cache : gmap jsstring (PerformanceCache.CacheEntry (list Migration));
  isLoading : bool;
  searchTerm : jsstring;
  filterStatus : FilterStatus;
  logBuffer : list LogEntry
}.

(** Field updates. *)
Definition withMigrations (ms : list Migration) (st : Shell) : Shell :=
  mkShell (migrationsDir st) (commands st) ms (selectedIndex st) (dbInfo st)
    (cache st) (isLoading st) (searchTerm st) (filterStatus st) (logBuffer st).
Definition withSelectedIndex (i : Z) (st : Shell) : Shell :=
  mkShell (migrationsDir st) (commands st) (migrations st) i (dbInfo st)
    (cache st) (isLoading st) (searchTerm st) (filterStatus st) (logBuffer st).
Definition withDbInfo (d : DatabaseInfo) (st : Shell) : Shell :=
  mkShell (migrationsDir st) (commands st) (migrations st) (selectedIndex st) d
    (cache st) (isLoading st) (searchTerm st) (filterStatus st) (logBuffer st).
Definition withCache (c : gmap jsstring (PerformanceCache.CacheEntry (list Migration)))
    (st : Shell) : Shell :=
  mkShell (migrationsDir st) (commands st) (migrations st) (selectedIndex st) (dbInfo st)
    c (isLoading st) (searchTerm st) (filterStatus st) (logBuffer st).
Definition withIsLoading (b : bool) (st : Shell) : Shell :=
  mkShell (migrationsDir st) (commands st) (migrations st) (selectedIndex st) (dbInfo st)
    (cache st) b (searchTerm st) (filterStatus st) (logBuffer st).
Definition withSearchTerm (t : jsstring) (st : Shell) : Shell :=
  mkShell (migrationsDir st) (commands st) (migrations st) (selectedIndex st) (dbInfo st)
    (cache st) (isLoading st) t (filterStatus st) (logBuffer st).
Definition withFilterStatus (f : FilterStatus) (st : Shell) : Shell :=
  mkShell (migrationsDir st) (commands st) (migrations st) (selectedIndex st) (dbInfo st)
    (cache st) (isLoading st) (searchTerm st) f (logBuffer st).
Definition withLogBuffer (l : list LogEntry) (st : Shell) : Shell :=
  mkShell (migrationsDir st) (commands st) (migrations st) (selectedIndex st) (dbInfo st)
    (cache st) (isLoading st) (searchTerm st) (filterStatus st) l.

Definition withConnected (b : bool) (d : DatabaseInfo) : DatabaseInfo :=
  mkDatabaseInfo (host d) (database d) b (migrationsCount d) (pendingCount d) (lastCheck d).

(** [a || b] on strings: [b] when [a] is missing or empty. *)
Definition orDefault (a : option jsstring) (b : jsstring) : jsstring :=
  match a with
  | Some s => if truthy s then s else b
  | None => b
  end.

(** The constructor (lines 126-133). [cwdMigrations] is
    [path.join(process.cwd(), 'migrations')]. *)
Definition newShell (cwdMigrations : jsstring) (config : MigrationShellConfig) : Shell :=
  {| migrationsDir := orDefault (cfg_migrationsDir config) cwdMigrations;
     commands :=
       {| showStatus := orDefault (cfg_commands config ≫= cfg_showStatus)
                          (str "pnpm run migration:show");
          migrateUp := orDefault (cfg_commands config ≫= cfg_migrateUp)
                          (str "pnpm run migrate:up");
          migrateDown := orDefault (cfg_commands config ≫= cfg_migrateDown)
                          (str "pnpm run migrate:down") |};
     migrations := [];
     selectedIndex := 0;
     dbInfo := {| host := str "localhost"; database := str "eternal_app";
                  connected := false; migrationsCount := 0; pendingCount := 0;
                  lastCheck := 0 |};
     cache := ∅;
     isLoading := false;
     searchTerm := [];
     filterStatus := f_all;
     logBuffer := [] |}.

(** [log(message, type)] (lines 678-705): append, and keep the last
    [MAX_LOG_ENTRIES]. *)
Definition log (message : jsstring) (type : LogType) (st : Shell) : Shell :=
  let buf := logBuffer st ++ [mkLog type message] in
  withLogBuffer
    (if (MAX_LOG_ENTRIES <? length buf)%nat
     then drop (length buf - MAX_LOG_ENTRIES) buf
     else buf) st.

(** ** Host functions left abstract

    [String.prototype.toLowerCase] (full Unicode case mapping) and the three
    helpers that fill the descriptive fields of a record
    ([extractDescription], [formatFileSize], [generateHash]); no property
    below depends on what they compute. *)
Class Host : Type := mkHost {
  toLowerCase : jsstring → jsstring;
  extractDescription : jsstring → jsstring;
  formatFileSize : Z → jsstring;
  generateHash : jsstring → jsstring
}.

(** ** Filter and search: [getFilteredMigrations] (lines 605-621) *)

Definition matchesSearch `{Host} (term : jsstring) (m : Migration) : bool :=
  includes (toLowerCase (name m)) term
  || match description m with
     | Some d => truthy d && includes (toLowerCase d) term
     | None => false
     end.

Definition getFilteredMigrations `{Host} (st : Shell) : list Migration :=
  let filtered := migrations st in
  let filtered :=
    match filterStatus st with
    | f_all => filtered
    | f_only s => List.filter (fun m => bool_decide (status m = s)) filtered
    end in
  if truthy (searchTerm st) then
    let term := toLowerCase (searchTerm st) in
    List.filter (matchesSearch term) filtered
  else filtered.

(** [updateMigrationsList] (lines 623-648): the list widget is redrawn
    from the filtered view and the selection is clamped to it. *)
Definition updateMigrationsList `{Host} (st : Shell) : Shell :=
  let filtered := getFilteredMigrations st in
  if selectedIndex st >=? Z.of_nat (length filtered)
  then withSelectedIndex (Z.max 0 (Z.of_nat (length filtered) - 1)) st
  else st.

(** [applyFilters] *)
Definition applyFilters `{Host} (st : Shell) : Shell := updateMigrationsList st.

Definition filters : list FilterStatus :=
  [f_all; f_only pending; f_only applied; f_only failed].

(** [filters.indexOf(f)] *)
Definition filterIndex (f : FilterStatus) : nat :=
  match f with
  | f_all => 0
  | f_only pending => 1
  | f_only applied => 2
  | f_only failed => 3
  end.

Definition filterName (f : FilterStatus) : jsstring :=
  match f with
  | f_all => str "all"
  | f_only pending => str "pending"
  | f_only applied => str "applied"
  | f_only failed => str "failed"
  end.

(** [cycleFilter] (lines 717-724) *)
Definition cycleFilter `{Host} (st : Shell) : Shell :=
  let currentIndex := filterIndex (filterStatus st) in
  let next := nth ((currentIndex + 1) mod length filters) filters f_all in
  let st := applyFilters (withFilterStatus next st) in
  log (str "Filter changed to: " ++ filterName (filterStatus st)) info st.

(** The [submit] handler of the search box (lines 363-367). *)
Definition searchSubmit `{Host} (value : jsstring) (st : Shell) : Shell :=
  applyFilters (withSearchTerm value st).

(** The [select] handler of the list (lines 332-335). *)
Definition listSelect (index : Z) (st : Shell) : Shell :=
  withSelectedIndex index st.

(** ** Status reconciliation *)

(** [parseAppliedMigrations] (lines 557-572) *)
Definition parseAppliedLine (line : jsstring) : list jsstring :=
  if includes line [checkMark] || includes line (str "[X]") then
    match search reApplied 0 line with
    | Some m =>
        match m_group1 m with
        | Some g => [removeAll reAnsi g]
        | None => []
        end
    | None => []
    end
  else [].

Definition parseAppliedMigrations (output : jsstring) : list jsstring :=
  flat_map parseAppliedLine (split 10 output).

(** The body of [migrations.forEach] in [loadMigrations] (lines 516-528). *)
Definition isApplied (appliedMigrations : list jsstring) (m : Migration) : bool :=
  let baseName := replaceFirst reExtension (name m) in
  let migrationTimestamp := group1 (matchAt reDigits baseName) in
  existsb
    (fun appliedName =>
       let appliedTimestamp := group1 (search reDigits 0 appliedName) in
       match migrationTimestamp, appliedTimestamp with
       | Some a, Some b => truthy a && truthy b && bool_decide (a = b)
       | _, _ => false
       end)
    appliedMigrations.

Definition reconcile (appliedMigrations : list jsstring) (ms : list Migration) : list Migration :=
  map (fun m => if isApplied appliedMigrations m then setStatus applied m else m) ms.

(** ** The outside world *)

Inductive result (A : Type) : Type :=
| Ok (a : A)
| Err (message : jsstring).
Arguments Ok {A}.
Arguments Err {A}.

(** The two fields of [fs.Stats] the program reads. *)
Record Stats : Type := mkStats { birthtimeMs : Z; st_size : Z }.

Inductive IOEvent : Type :=
| EvAccess (dir : jsstring)
| EvMkdir (dir : jsstring)
| EvReaddir (dir : jsstring)
| EvStat (dir file : jsstring)
| EvReadFile (dir file : jsstring)
| EvExecSync (command : jsstring) (timeout : Z)
| EvSpawn (command : jsstring).

(** What the outside answers during one run of [loadMigrations]. *)
Record LoadEnv : Type := mkLoadEnv {
  now_get : Z;                              (* [Date.now()] in [cache.get] *)
  fs_access : bool;                         (* [fs.access] resolves *)
  fs_mkdir : result unit;
  fs_readdir : result (list jsstring);
  fs_stat : jsstring → result Stats;
  fs_readFile : jsstring → result jsstring;
  exec_showStatus : result jsstring;        (* [execSync(showStatus)]: stdout, or the error thrown *)
  now_check : Z;                            (* [Date.now()] stored in [lastCheck] *)
  now_set : Z                               (* [Date.now()] in [cache.set] *)
}.

(** Calls to the outside: the trace of the calls made and the value or the
    error thrown. *)
Definition IO (A : Type) : Type := list IOEvent * result A.

#[global] Instance IO_ret : MRet IO := fun A a => ([], Ok a).

#[global] Instance IO_bind : MBind IO := fun A B f m =>
  match m with
  | (t, Ok a) => let '(t', r) := f a in (t ++ t', r)
  | (t, Err e) => (t, Err e)
  end.

Definition call {A} (ev : IOEvent) (r : result A) : IO A := ([ev], r).

(** ** Scanning the directory *)

Definition isMigrationFile (file : jsstring) : bool :=
  endsWith file (str ".ts") || endsWith file (str ".js").

(** The body of the loop over [migrationFiles] (lines 485-503). *)
Definition scanFile `{Host} (env : LoadEnv) (dir file : jsstring) : IO Migration :=
  stats ← call (EvStat dir file) (fs_stat env file);
  content ← call (EvReadFile dir file) (fs_readFile env file);
  let timestampMatch := matchAt reDigits file in
  let timestamp :=
    match group1 timestampMatch with
    | Some d => parseInt d
    | None => birthtimeMs stats
    end in
  mret {| id := None; name := file; timestamp := timestamp; status := pending;
         description := Some (extractDescription content);
         size := Some (formatFileSize (st_size stats));
         hash := Some (generateHash content) |}.

Fixpoint scanFiles `{Host} (env : LoadEnv) (dir : jsstring) (files : list jsstring)
    : IO (list Migration) :=
  match files with
  | [] => mret []
  | file :: rest =>
      m ← scanFile env dir file;
      ms ← scanFiles env dir rest;
      mret (m :: ms)
  end.

(** [migrations.sort((a, b) => a.timestamp - b.timestamp)] (line 505): the sort of
    the language is stable, so it is the list in ascending order of
    timestamp with equal timestamps in their order of arrival. *)
Fixpoint insertByTimestamp (m : Migration) (l : list Migration) : list Migration :=
  match l with
  | [] => [m]
  | x :: l' =>
      if timestamp m <=? timestamp x then m :: l
      else x :: insertByTimestamp m l'
  end.

Definition sortByTimestamp (l : list Migration) : list Migration :=
  foldr insertByTimestamp [] l.

Definition scanDirectory `{Host} (env : LoadEnv) (dir : jsstring) : IO (list Migration) :=
  _ ← (if fs_access env then call (EvAccess dir) (Ok ())
       else (_ ← call (EvAccess dir) (Ok ()); call (EvMkdir dir) (fs_mkdir env)));
  files ← call (EvReaddir dir) (fs_readdir env);
  let migrationFiles := List.filter isMigrationFile files in
  ms ← scanFiles env dir migrationFiles;
  mret (sortByTimestamp ms).

(** ** [loadMigrations] (lines 457-555)

    The operation is asynchronous: it runs up to its first [await], the
    file system is read while other handlers may run, and the block after
    the last [await] runs in one piece (the status command is run with
    [execSync]). All writes to the shell after [isLoading = true] happen in
    that last block or in [catch]/[finally]. The model has the two pieces
    as [loadBegin] and [loadRun]; [loadMigrations] is one after the other. *)

Definition cacheKey : jsstring := str "migrations".

Inductive LoadStart : Type :=
| Returned (st : Shell)   (* the guard or the cache ended the operation *)
| Started (st : Shell).   (* [isLoading] is set, the scan is under way *)

Definition loadBegin `{Host} (now : Z) (st : Shell) : LoadStart :=
  if isLoading st then Returned st
  else
    let '(cached, c) := PerformanceCache.get cacheKey now (cache st) in
    let st := withCache c st in
    match cached with
    | Some ms => Returned (updateMigrationsList (withMigrations ms st))
    | None => Started (log (str "Loading migrations...") info (withIsLoading true st))
    end.

Definition countPending (ms : list Migration) : Z :=
  Z.of_nat (length (List.filter (fun m => bool_decide (status m = pending)) ms)).

Definition loadRun `{Host} (env : LoadEnv) (st : Shell) : Shell * list IOEvent :=
  match scanDirectory env (migrationsDir st) with
  | (t, Ok ms) =>
      let '(ms, st) :=
        match exec_showStatus env with
        | Ok statusOutput =>
            let appliedMigrations := parseAppliedMigrations statusOutput in
            (reconcile appliedMigrations ms,
             withDbInfo (withConnected true (dbInfo st)) st)
        | Err errorMessage =>
            (ms,
             log (str "Could not fetch migration status: " ++ errorMessage) warning
               (withDbInfo (withConnected false (dbInfo st)) st))
        end in
      let st := withMigrations ms st in
      let st :=
        withDbInfo
          (mkDatabaseInfo (host (dbInfo st)) (database (dbInfo st)) (connected (dbInfo st))
             (Z.of_nat (length ms)) (countPending ms) (now_check env)) st in
      let st := withCache (PerformanceCache.set cacheKey ms (Some 60000) (now_set env) (cache st)) st in
      let st := updateMigrationsList st in
      let st := log (str "Loaded " ++ showNat (length ms) ++ str " migrations") success st in
      (withIsLoading false st, t ++ [EvExecSync (showStatus (commands st)) 10000])
  | (t, Err errorMessage) =>
      let st := log (str "Error loading migrations: " ++ errorMessage) error st in
      (withIsLoading false st, t)
  end.

Definition loadMigrations `{Host} (env : LoadEnv) (st : Shell) : Shell * list IOEvent :=
  match loadBegin (now_get env) st with
  | Returned st' => (st', [])
  | Started st' => loadRun env st'
  end.

(** ** Connectivity probe and refresh *)

(** [connectToDatabase] (lines 1276-1303); [probe] is what
    [execSync(showStatus)] answers. *)
Definition connectToDatabase (probe : result jsstring) (st : Shell) : Shell * list IOEvent :=
  let st0 :=
    if connected (dbInfo st) then st
    else log (str "Testing database connection...") info st in
  let st1 :=
    match probe with
    | Ok _ =>
        if connected (dbInfo st0) then st0
        else log (str "Database connection successful") success
               (withDbInfo (withConnected true (dbInfo st0)) st0)
    | Err errorMessage =>
        if connected (dbInfo st0)
        then log (str "Database connection lost: " ++ errorMessage) error
               (withDbInfo (withConnected false (dbInfo st0)) st0)
        else st0
    end in
  (st1, [EvExecSync (showStatus (commands st)) 5000]).

(** [refreshData(silent)] (lines 1225-1235) *)
Definition refreshData `{Host} (silent : bool) (env : LoadEnv) (probe : result jsstring)
    (st : Shell) : Shell * list IOEvent :=
  let st := if silent then st else log (str "Refreshing data...") info st in
  let st := withCache (PerformanceCache.clear (cache st)) st in
  let '(st, t1) := loadMigrations env st in
  let '(st, t2) := connectToDatabase probe st in
  (st, t1 ++ t2).

(** ** Mutation commands *)

(** How a child process started by [executeCommand] ends. *)
Inductive SpawnOutcome : Type :=
| Closed (code : option nat) (stdout stderr : jsstring)
| SpawnError (message : jsstring).

Definition showCode (code : option nat) : jsstring :=
  match code with
  | Some n => showNat n
  | None => str "null"
  end.

(** [executeCommand(command, description)] (lines 1001-1046) *)
Definition executeCommand (command description : jsstring) (outcome : SpawnOutcome)
    (st : Shell) : Shell * list IOEvent :=
  let st := log (description ++ str "...") info st in
  let st :=
    match outcome with
    | Closed (Some O) output _ =>
        let st := log (description ++ str " completed successfully") success st in
        if truthy (trim output) then log (trim output) info st else st
    | Closed code _ errorOutput =>
        let st := log (description ++ str " failed with code " ++ showCode code) error st in
        let st := if truthy (trim errorOutput) then log (trim errorOutput) error st else st in
        log (str "Error executing command: Command failed with code " ++ showCode code) error st
    | SpawnError message =>
        let st := log (description ++ str " failed: " ++ message) error st in
        log (str "Error executing command: " ++ message) error st
    end in
  (st, [EvSpawn command]).

(** What follows [executeCommand] in the four mutation handlers. *)
Definition invalidateAndRefresh `{Host} (env : LoadEnv) (probe : result jsstring)
    (st : Shell) : Shell * list IOEvent :=
  let st := withCache (PerformanceCache.invalidate cacheKey (cache st)) st in
  refreshData false env probe st.

(** The [submit] handler of the name box of [createMigration]
    (lines 900-912). *)
Definition createMigration `{Host} (name : jsstring) (outcome : SpawnOutcome)
    (env : LoadEnv) (probe : result jsstring) (st : Shell) : Shell * list IOEvent :=
  if truthy (trim name) then
    let '(st, t1) :=
      executeCommand (str "pnpm run migration:create migrations/" ++ name)
        (str "Creating migration: " ++ name) outcome st in
    let '(st, t2) := invalidateAndRefresh env probe st in
    (st, t1 ++ t2)
  else (st, []).

(** The [submit] handler of the name box of [generateMigration]
    (lines 938-950). *)
Definition generateMigration `{Host} (name : jsstring) (outcome : SpawnOutcome)
    (env : LoadEnv) (probe : result jsstring) (st : Shell) : Shell * list IOEvent :=
  if truthy (trim name) then
    let '(st, t1) :=
      executeCommand (str "pnpm run migration:generate migrations/" ++ name)
        (str "Generating migration: " ++ name) outcome st in
    let '(st, t2) := invalidateAndRefresh env probe st in
    (st, t1 ++ t2)
  else (st, []).

(** [applyMigrations] (lines 961-975); [confirmed] is the answer to the
    confirmation box. *)
Definition applyMigrations `{Host} (confirmed : bool) (outcome : SpawnOutcome)
    (env : LoadEnv) (probe : result jsstring) (st : Shell) : Shell * list IOEvent :=
  if confirmed then
    let '(st, t1) :=
      executeCommand (migrateUp (commands st)) (str "Applying migrations") outcome st in
    let '(st, t2) := invalidateAndRefresh env probe st in
    (st, t1 ++ t2)
  else (st, []).

(** [revertMigration] (lines 977-991) *)
Definition revertMigration `{Host} (confirmed : bool) (outcome : SpawnOutcome)
    (env : LoadEnv) (probe : result jsstring) (st : Shell) : Shell * list IOEvent :=
  if confirmed then
    let '(st, t1) :=
      executeCommand (migrateDown (commands st)) (str "Reverting migration") outcome st in
    let '(st, t2) := invalidateAndRefresh env probe st in
    (st, t1 ++ t2)
  else (st, []).

(** ** The shell as a transition system

    One step is one piece of code that runs without interruption: a key or
    widget handler, or one of the two pieces of [loadMigrations]. *)

Inductive step `{Host} : Shell → Shell → Prop :=
| step_load_begin now st st' :
    loadBegin now st = Started st' → step st st'
| step_load_return now st st' :
    loadBegin now st = Returned st' → step st st'
| step_load_finish env st :
    isLoading st = true → step st (loadRun env st).1
| step_cache_clear st :
    step st (withCache (PerformanceCache.clear (cache st)) st)
| step_cache_invalidate st :
    step st (withCache (PerformanceCache.invalidate cacheKey (cache st)) st)
| step_connect probe st :
    step st (connectToDatabase probe st).1
| step_execute command description outcome st :
    step st (executeCommand command description outcome st).1
| step_cycleFilter st :
    step st (cycleFilter st)
| step_searchSubmit value st :
    step st (searchSubmit value st)
| step_listSelect index st :
    step st (listSelect index st)
| step_log message type st :
    step st (log message type st).

Inductive reachable `{Host} : Shell → Prop :=
| reachable_new cwdMigrations config :
    reachable (newShell cwdMigrations config)
| reachable_step st st' :
    reachable st → step st st' → reachable st'.

(** ** Ordering of the inventory *)

(** Every pair of adjacent records is related by [R] on timestamps. *)
Definition adjacentByTimestamp (R : Z → Z → Prop) (l : list Migration) : Prop :=
  ∀ i a b, l !! i = Some a → l !! S i = Some b → R (timestamp a) (timestamp b).

Definition strictlyAscending (l : list Migration) : Prop := adjacentByTimestamp Z.lt l.
Definition ascending (l : list Migration) : Prop := adjacentByTimestamp Z.le l.

(** ** A host to run the model on examples *)

Definition asciiLower (c : N) : N :=
  if ((65 <=? c) && (c <=? 90))%N then (c + 32)%N else c.

(** [toLowerCase] as it acts on ASCII text; the descriptive fields are
    those of an empty file. *)
Definition asciiHost : Host :=
  {| toLowerCase := map asciiLower;
     extractDescription := fun _ => str "Migration";
     formatFileSize := fun _ => str "0 B";
     generateHash := fun _ => str "0" |}.

(** ** The filtered view in the words of the specification *)

(** A description that is absent or empty counts as no description. *)
Definition descriptionOf (m : Migration) : option jsstring :=
  match description m with
  | Some d => if truthy d then Some d else None
  | None => None
  end.

Definition passesStatus (f : FilterStatus) (m : Migration) : bool :=
  match f with
  | f_all => true
  | f_only s => bool_decide (status m = s)
  end.

(** [text] contains [term], case ignored. *)
Definition containsIgnoringCase `{Host} (text term : jsstring) : bool :=
  includes (toLowerCase text) (toLowerCase term).

Definition passesSearch `{Host} (term : jsstring) (m : Migration) : bool :=
  match term with
  | [] => true
  | _ :: _ =>
      containsIgnoringCase (name m) term
      || match descriptionOf m with
         | Some d => containsIgnoringCase d term
         | None => false
         end
  end.

Definition filteredView `{Host} (inventory : list Migration) (f : FilterStatus)
    (term : jsstring) : list Migration :=
  List.filter (fun m => passesStatus f m && passesSearch term m) inventory.

(** ** Changes of the view *)

(** A change of filter or of search term. *)
Inductive viewChange `{Host} (st : Shell) : Shell → Prop :=
| change_filter : viewChange st (cycleFilter st)
| change_search value : viewChange st (searchSubmit value st).

(** ** Digit runs, in the words of the specification *)

(** The run of digits a string begins with, if it begins with a digit. *)
Definition leadingDigitRun (s : jsstring) : option jsstring :=
  match takeWhile isDigit s with
  | [] => None
  | d => Some d
  end.

(** The first run of digits that occurs anywhere in a string. *)
Definition firstDigitRun (s : jsstring) : option jsstring :=
  leadingDigitRun (dropWhile (fun c => negb (isDigit c)) s).

(** Some applied-name token parsed from [output] has, as the digit run
    [tokenRun] finds in it, the leading digit run of the record. *)
Definition hasAppliedToken (tokenRun : jsstring → option jsstring)
    (output : jsstring) (r : Migration) : Prop :=
  ∃ tok d, In tok (parseAppliedMigrations output)
           ∧ leadingDigitRun (name r) = Some d ∧ tokenRun tok = Some d.

(** Every record of [inventory] is Applied when it has such a token and
    Pending when it has none. *)
Definition statusReconciled (tokenRun : jsstring → option jsstring)
    (output : jsstring) (inventory : list Migration) : Prop :=
  ∀ r, In r inventory →
    (hasAppliedToken tokenRun output r → status r = applied)
    ∧ (¬ hasAppliedToken tokenRun output r → status r = pending).

(** ** What a scan produces *)

(** A record as the scan builds it: Pending, and with the value of its
    leading digit run as timestamp when its name has one. *)
Definition scanned (m : Migration) : Prop :=
  status m = pending
  ∧ ∀ d, leadingDigitRun (name m) = Some d → timestamp m = parseInt d.

Definition byTimestamp (a b : Migration) : Prop := timestamp a <= timestamp b.

(** The number a digit run stands for. *)
Definition runValue (o : option jsstring) : Z :=
  match o with Some d => parseInt d | None => 0 end.

(** The inventory a load stores, from the sorted scan and the answer of
    the status command. *)
Definition reconciled (ms : list Migration) (answer : result jsstring) : list Migration :=
  match answer with
  | Ok statusOutput => reconcile (parseAppliedMigrations statusOutput) ms
  | Err _ => ms
  end.

Definition succeeded {A} (r : result A) : bool :=
  match r with Ok _ => true | Err _ => false end.

(** ** Well-formed shells *)

(** What every state of the shell satisfies: the inventory and every
    cached inventory are in ascending order of timestamp, the cache has no
    other key than [cacheKey], and it is empty while a load is in flight. *)
Definition wellFormed (st : Shell) : Prop :=
  ascending (migrations st)
  ∧ (∀ k e, cache st !! k = Some e →
       k = cacheKey ∧ ascending (PerformanceCache.data e))
  ∧ (isLoading st = true → cache st = ∅).

(** ** Example data *)

Definition emptyConfig : MigrationShellConfig := mkConfig None None None None.

Definition exampleShell : Shell := newShell (str "/app/migrations") emptyConfig.

(** A directory that holds [files], each readable, and a status command
    that answers [answer]. *)
Definition exampleEnvAt (now : Z) (files : list jsstring) (answer : result jsstring)
    : LoadEnv :=
  {| now_get := now;
     fs_access := true;
     fs_mkdir := Ok ();
     fs_readdir := Ok files;
     fs_stat := fun _ => Ok (mkStats 1700000000000 120);
     fs_readFile := fun _ => Ok [];
     exec_showStatus := answer;
     now_check := now + 1;
     now_set := now + 2 |}.

Definition exampleEnv : list jsstring → result jsstring → LoadEnv := exampleEnvAt 1000.

(** The status command names a migration by its class, with the timestamp
    at the end. *)
Definition classNameOutput : jsstring := str "[X] 1 Init100".

Definition twinFiles : list jsstring := [str "100-a.ts"; str "100-a.js"].

Definition threeFiles : list jsstring := [str "300-c.ts"; str "100-a.ts"; str "200-b.js"].

(** Three lines: 100 applied (marker [[X]]), 200 not applied, 300 applied
    (marker check mark). *)
Definition threeFilesOutput : jsstring :=
  str "[X] 1 100-a" ++ [10%N] ++ str "[ ] 2 200-b" ++ [10%N]
  ++ [checkMark] ++ str " 3 300-c".

(** The shell after a first load of the three files. *)
Definition loadedShell : Shell :=
  (@loadMigrations asciiHost (exampleEnv threeFiles (Ok threeFilesOutput)) exampleShell).1.

(** The configuration of the README (section Advanced Configuration). *)
Definition readmeConfig : MigrationShellConfig :=
  {| cfg_migrationsDir := Some (str "./custom-migrations");
     cfg_autoRefreshInterval := Some 60000;
     cfg_commands :=
       Some {| cfg_showStatus := Some (str "npm run migration:status");
               cfg_migrateUp := Some (str "npm run migrate:up");
               cfg_migrateDown := Some (str "npm run migrate:down");
               cfg_create := Some (str "npm run migration:create");
               cfg_generate := Some (str "npm run migration:generate") |};
     cfg_database :=
       Some {| cfg_host := Some (str "localhost");
               cfg_name := Some (str "my_database") |} |}.

Definition exampleRecord (file : jsstring) (t : Z) (s : Status) : Migration :=
  {| id := None; name := file; timestamp := t; status := s;
     description := Some (str "Migration"); size := Some (str "0 B");
     hash := Some (str "0") |}.

(** Five records, two of them Pending, the last one selected, no filter. *)
Definition fiveShell : Shell :=
  withSelectedIndex 4
    (withMigrations
       [exampleRecord (str "100-a.ts") 100 applied;
        exampleRecord (str "200-b.ts") 200 pending;
        exampleRecord (str "300-c.ts") 300 applied;
        exampleRecord (str "400-d.ts") 400 pending;
        exampleRecord (str "500-e.ts") 500 applied]
       exampleShell).

(** ** The rest of the shell *)

(** [l.slice(-n)]: the last [n] elements of [l]. *)
Definition lastN {A} (n : nat) (l : list A) : list A := drop (length l - n) l.

(** The callback of the timer of [setupAutoRefresh] (lines 398-402), run
    at clock reading [now]. *)
Definition autoRefreshTick `{Host} (now : Z) (env : LoadEnv) (probe : result jsstring)
    (st : Shell) : Shell * list IOEvent :=
  if negb (isLoading st) && (now - lastCheck (dbInfo st) >? 30000)
  then refreshData true env probe st
  else (st, []).

(** [start] (lines 1305-1312) *)
Definition start `{Host} (env : LoadEnv) (probe : result jsstring) (st : Shell)
    : Shell * list IOEvent :=
  let st := log (str "Starting Migration Manager...") info st in
  let '(st, t1) := loadMigrations env st in
  let '(st, t2) := connectToDatabase probe st in
  (st, t1 ++ t2).

(** The counts of the connection summary are those of the inventory, and
    a cached inventory is the inventory. *)
Definition summaryConsistent (st : Shell) : Prop :=
  migrationsCount (dbInfo st) = Z.of_nat (length (migrations st))
  ∧ pendingCount (dbInfo st) = countPending (migrations st)
  ∧ ∀ k e, cache st !! k = Some e → PerformanceCache.data e = migrations st.

(** A step leaves the log as it is or ends with a call to [log]. *)
Definition logStep (st st' : Shell) : Prop :=
  logBuffer st' = logBuffer st
  ∨ ∃ message type st0, logBuffer st' = logBuffer (log message type st0).

(** Two connection summaries that differ at most in [connected]. *)
Definition sameSummary (d d' : DatabaseInfo) : Prop :=
  host d' = host d ∧ database d' = database d
  ∧ migrationsCount d' = migrationsCount d ∧ pendingCount d' = pendingCount d
  ∧ lastCheck d' = lastCheck d.

(** A directory that cannot be listed. *)
Definition unreadableEnv : LoadEnv :=
  {| now_get := 1000;
     fs_access := true;
     fs_mkdir := Ok ();
     fs_readdir := Err (str "EACCES: permission denied, scandir");
     fs_stat := fun _ => Ok (mkStats 1700000000000 120);
     fs_readFile := fun _ => Ok [];
     exec_showStatus := Ok [];
     now_check := 1001;
     now_set := 1002 |}.

(** The calls a successful scan of [files] makes, in order. *)
Definition scanTrace (env : LoadEnv) (dir : jsstring) (files : list jsstring)
    : list IOEvent :=
  EvAccess dir
  :: (if fs_access env then [] else [EvMkdir dir])
  ++ EvReaddir dir
  :: flat_map (fun file => [EvStat dir file; EvReadFile dir file])
       (List.filter isMigrationFile files).

(** ** What a pattern matches

    [matches r s cap s' cap']: [r] matches a prefix of [s] and leaves [s'],
    capture group 1 going from [cap] to [cap']. *)
Inductive matches : regex → jsstring → option jsstring → jsstring → option jsstring → Prop :=
| matches_char c s cap :
    matches (Char c) (c :: s) cap s cap
| matches_class p x s cap :
    p x = true → matches (Class p) (x :: s) cap s cap
| matches_seq r1 r2 s s1 s2 cap cap1 cap2 :
    matches r1 s cap s1 cap1 → matches r2 s1 cap1 s2 cap2 →
    matches (Seq r1 r2) s cap s2 cap2
| matches_or_left r1 r2 s s' cap cap' :
    matches r1 s cap s' cap' → matches (Or r1 r2) s cap s' cap'
| matches_or_right r1 r2 s s' cap cap' :
    matches r2 s cap s' cap' → matches (Or r1 r2) s cap s' cap'
| matches_star p pre s cap :
    Forall (fun c => p c = true) pre → matches (Star p) (pre ++ s) cap s cap
| matches_plus p pre s cap :
    Forall (fun c => p c = true) pre → pre ≠ [] → matches (Plus p) (pre ++ s) cap s cap
| matches_group r s s' cap cap' :
    matches r s cap s' cap' →
    matches (Group r) s cap s' (Some (take (length s - length s') s))
| matches_end cap :
    matches End [] cap [] cap.

(** The child process exited with code 0. *)
Definition exitedZero (outcome : SpawnOutcome) : bool :=
  match outcome with
  | Closed (Some O) _ _ => true
  | _ => false
  end.

(** The filter that follows [f] in [filters], the first after the last. *)
Definition nextFilter (f : FilterStatus) : FilterStatus :=
  match f with
  | f_all => f_only pending
  | f_only pending => f_only applied
  | f_only applied => f_only failed
  | f_only failed => f_all
  end.

(** ** The helpers that fill the descriptive fields *)

Module Source.

(** [ToInt32]: the 32-bit two's complement integer congruent to [z]. *)
Definition toInt32 (z : Z) : Z := (z + 2 ^ 31) mod 2 ^ 32 - 2 ^ 31.

(** One turn of the loop of [generateHash] (lines 598-600):
    [hash = ((hash << 5) - hash) + char; hash = hash & hash]. *)
Definition hashStep (hash : Z) (char : N) : Z :=
  let hash := toInt32 (Z.shiftl (toInt32 hash) 5) - hash + Z.of_N char in
  Z.land (toInt32 hash) (toInt32 hash).

(** The value of [hash] after the loop. *)
Definition hashCode (content : jsstring) : Z := fold_left hashStep content 0.

(** The digit [d] of a number written in base 16, as a code unit. *)
Definition hexDigit (d : Z) : N := Z.to_N (if d <? 10 then 48 + d else 87 + d).

Fixpoint hexDigitsFrom (fuel : nat) (z : Z) (acc : jsstring) : jsstring :=
  match fuel with
  | O => acc
  | S fuel' =>
      let acc' := hexDigit (z mod 16) :: acc in
      if z / 16 =? 0 then acc' else hexDigitsFrom fuel' (z / 16) acc'
  end.

(** [z.toString(16)] for an integer [z >= 0]. *)
Definition toString16 (z : Z) : jsstring :=
  hexDigitsFrom (S (Z.to_nat (Z.log2 z))) z [].

(** [generateHash] (lines 595-603) *)
Definition generateHash (content : jsstring) : jsstring :=
  toString16 (Z.abs (hashCode content)).

(** [[A-Z]] *)
Definition isUpper (c : N) : bool := ((65 <=? c) && (c <=? 90))%N.

(** [\w] *)
Definition isWord (c : N) : bool :=
  (isDigit c || isUpper c || (97 <=? c) && (c <=? 122) || (c =? 95))%N.

(** The pattern that matches the code units of [s] one after the other
    and then [r]. *)
Fixpoint litThen (s : jsstring) (r : regex) : regex :=
  match s with
  | [] => r
  | c :: s' => Seq (Char c) (litThen s' r)
  end.

(** The opening and the closing of a block comment, as in
    [/\/\*\*(.*?)\*\//s]. *)
Definition reOpen : regex := Seq (Char 47) (Seq (Char 42) (Char 42)).
Definition reClose : regex := Seq (Char 42) (Char 47).

(** [content.match(/\/\*\*(.*?)\*\//s)?.[1]]: the pattern is tried at
    each place from the left; where the opening stands, the lazy [(.*?)]
    (with the [s] flag [.] is any code unit) takes as little as it can, so
    the capture runs up to the leftmost closing after the opening; where
    no closing follows there is no match at that place. *)
Fixpoint blockComment (s : jsstring) : option jsstring :=
  match
    match matchAt reOpen s with
    | Some m =>
        match search reClose 0 (m_rest m) with
        | Some m' => Some (take (m_index m') (m_rest m))
        | None => None
        end
    | None => None
    end
  with
  | Some g => Some g
  | None =>
      match s with
      | [] => None
      | _ :: s' => blockComment s'
      end
  end.

(** [/export\s+class\s+(\w+)/] *)
Definition reClass : regex :=
  litThen (str "export")
    (Seq (Plus isSpace)
       (litThen (str "class") (Seq (Plus isSpace) (Group (Plus isWord))))).

(** [s.replace(/([A-Z])/g, ' $1')]: a space before every capital. *)
Definition spaceCapitals (s : jsstring) : jsstring :=
  flat_map (fun c => if isUpper c then [32%N; c] else [c]) s.

(** [extractDescription] (lines 574-586) *)
Definition extractDescription (content : jsstring) : jsstring :=
  match blockComment content with
  | Some g => trim (hd [] (split 10 (trim (removeAll (Char 42) g))))
  | None =>
      match group1 (search reClass 0 content) with
      | Some g => trim (spaceCapitals (replaceFirst (Plus isDigit) g))
      | None => str "Migration"
      end
  end.

End Source.

(** The host whose descriptive fields are those of the source;
    [toLowerCase] and [formatFileSize] (which computes with floating-point
    logarithms) stay parameters. *)
Definition sourceHost (lower : jsstring → jsstring) (fileSize : Z → jsstring) : Host :=
  {| toLowerCase := lower;
     extractDescription := Source.extractDescription;
     formatFileSize := fileSize;
     generateHash := Source.generateHash |}.

(** A migration file as the tool writes it. *)
Definition exampleContent : jsstring :=
  str "/**" ++ [10%N] ++ str " * Add the users table" ++ [10%N]
  ++ str " * and its index" ++ [10%N] ++ str " */" ++ [10%N]
  ++ str "export class AddUsers1700000000000 implements MigrationInterface {}".

(** The hash with 31 as multiplier, computed without overflow. *)
Definition polynomialHash (content : jsstring) : Z :=
  fold_left (fun h c => 31 * h + Z.of_N c) content 0.

(** A directory with a file that is no migration. *)
Definition mixedFiles : list jsstring :=
  [str "100-a.ts"; str "README.md"; str "200-b.js"].

(** * Properties *)

(** ** The cache *)

Section CacheFacts.
Context {T : Type}.
Implicit Types (cache : gmap jsstring (PerformanceCache.CacheEntry T)).

Lemma get_fresh cache k v t now soon :
  soon - now <= t →
  PerformanceCache.get k soon (PerformanceCache.set k v (Some t) now cache)
  = (Some v, PerformanceCache.set k v (Some t) now cache).
Proof.
  intros Hle. unfold PerformanceCache.get, PerformanceCache.set.
  rewrite lookup_insert_eq. simpl.
  destruct (Z.gtb_spec (soon - now) t) as [Hgt|_]; [lia|reflexivity].
Qed.

Lemma get_expired cache k v t now later :
  later - now > t →
  PerformanceCache.get k later (PerformanceCache.set k v (Some t) now cache)
  = (None, delete k cache).
Proof.
  intros Hgt. unfold PerformanceCache.get, PerformanceCache.set.
  rewrite lookup_insert_eq. simpl.
  destruct (Z.gtb_spec (later - now) t) as [_|Hle]; [|lia].
  by rewrite delete_insert_eq.
Qed.

Lemma foldl_delete_lookup (P : jsstring → bool) (l : list jsstring) cache k :
  foldl (fun c key => if P key then delete key c else c) cache l !! k
  = if bool_decide (k ∈ l) && P k then None else cache !! k.
Proof.
  revert cache. induction l as [|x l IH]; intros cache; simpl.
  - reflexivity.
  - rewrite IH. destruct (decide (k = x)) as [->|Hne].
    + rewrite (bool_decide_eq_true_2 (x ∈ x :: l)) by constructor.
      simpl. destruct (P x) eqn:HP.
      * rewrite lookup_delete_eq. by destruct (bool_decide (x ∈ l)).
      * by rewrite !andb_false_r.
    + assert (bool_decide (k ∈ x :: l) = bool_decide (k ∈ l)) as ->.
      { apply bool_decide_ext. rewrite elem_of_cons. intuition congruence. }
      destruct (bool_decide (k ∈ l) && P k); [reflexivity|].
      destruct (P x); [by rewrite lookup_delete_ne|reflexivity].
Qed.

Lemma elem_of_keys cache k :
  k ∈ PerformanceCache.keys cache ↔ is_Some (cache !! k).
Proof.
  unfold PerformanceCache.keys. rewrite list_elem_of_fmap. split.
  - intros [[k' e] [-> Hin]]. apply elem_of_map_to_list in Hin. eauto.
  - intros [e He]. exists (k, e). split; [reflexivity|].
    by apply elem_of_map_to_list.
Qed.

(** C4. After [set(k, v, t)], a [get(k)] at the same clock reading (the
    ttl being a duration, [t >= 0]), and at any reading at most [t] ms
    after the write, returns [v] and leaves the cache as it is; a
    [get(k)] more than [t] ms after the write returns [null] and the key
    is gone from the map. *)
Theorem cache_set_get_ttl cache k (v : T) t now :
  let c := PerformanceCache.set k v (Some t) now cache in
  (0 <= t → PerformanceCache.get k now c = (Some v, c))
  ∧ (∀ soon, soon - now <= t → PerformanceCache.get k soon c = (Some v, c))
  ∧ (∀ later, later - now > t →
       (PerformanceCache.get k later c).1 = None
       ∧ (PerformanceCache.get k later c).2 !! k = None).
Proof.
  intros c. subst c. split; [|split].
  - intros Ht. apply get_fresh. lia.
  - intros soon Hs. by apply get_fresh.
  - intros later Hl. rewrite get_expired by done. simpl.
    split; [reflexivity|apply lookup_delete_eq].
Qed.

Lemma lookup_invalidate cache s k :
  PerformanceCache.invalidate s cache !! k
  = if includes k s then None else cache !! k.
Proof.
  unfold PerformanceCache.invalidate. rewrite foldl_delete_lookup.
  destruct (includes k s) eqn:Hinc.
  - destruct (bool_decide (k ∈ PerformanceCache.keys cache)) eqn:Hk; simpl.
    + reflexivity.
    + apply bool_decide_eq_false in Hk. rewrite elem_of_keys in Hk.
      destruct (cache !! k) eqn:E; [|reflexivity].
      exfalso. apply Hk. eauto.
  - by rewrite andb_false_r.
Qed.

(** C6. [invalidate(s)] deletes every key that contains [s] and leaves
    every other key mapped to the entry it had. *)
Theorem invalidate_removes_exactly cache s :
  ∀ k, PerformanceCache.invalidate s cache !! k
       = if includes k s then None else cache !! k.
Proof. intros k. apply lookup_invalidate. Qed.
End CacheFacts.

(** The scenario of the specification: ttl 100 ms, a read at once and a
    read 150 ms later. *)
Lemma cache_set_get_ttl_witness :
  let c := PerformanceCache.set (str "k") 7%nat (Some 100) 1000 ∅ in
  PerformanceCache.get (str "k") 1000 c = (Some 7%nat, c)
  ∧ (PerformanceCache.get (str "k") 1150 c).1 = None
  ∧ (PerformanceCache.get (str "k") 1150 c).2 !! str "k" = None.
Proof.
  destruct (cache_set_get_ttl (∅ : gmap jsstring _) (str "k") 7%nat 100 1000)
    as (H1 & _ & H3).
  split; [apply H1; lia|]. apply (H3 1150). lia.
Defined.

(** ** Filter and search *)

Section FilterFacts.
Context `{Host}.

Lemma filter_filter_andb {A} (p q : A → bool) (l : list A) :
  List.filter q (List.filter p l) = List.filter (fun x => p x && q x) l.
Proof.
  induction l as [|x l IH]; simpl; [reflexivity|].
  destruct (p x); simpl; [|exact IH].
  destruct (q x); by rewrite IH.
Qed.

Lemma filter_true {A} (l : list A) : List.filter (fun _ => true) l = l.
Proof. induction l as [|x l IH]; simpl; by rewrite ?IH. Qed.

Lemma filter_sublist {A} (p : A → bool) (l : list A) : sublist (List.filter p l) l.
Proof.
  induction l as [|x l IH]; simpl; [constructor|].
  destruct (p x); by constructor.
Qed.

Lemma matchesSearch_spec term m :
  term ≠ [] →
  matchesSearch (toLowerCase term) m = passesSearch term m.
Proof.
  intros Hne. unfold matchesSearch, passesSearch, containsIgnoringCase, descriptionOf.
  destruct term as [|c term]; [done|].
  destruct (description m) as [d|]; [|reflexivity].
  by destruct (truthy d).
Qed.

Lemma getFilteredMigrations_view st :
  getFilteredMigrations st
  = filteredView (migrations st) (filterStatus st) (searchTerm st).
Proof.
  unfold getFilteredMigrations, filteredView.
  destruct (searchTerm st) as [|c term] eqn:Hterm; simpl truthy; cbv iota.
  - destruct (filterStatus st) as [|s]; simpl.
    + symmetry. apply filter_true.
    + apply List.filter_ext. intros m. by rewrite andb_true_r.
  - assert (∀ l, List.filter (matchesSearch (toLowerCase (c :: term))) l
                 = List.filter (passesSearch (c :: term)) l) as Heq.
    { intros l. apply List.filter_ext. intros m. by apply matchesSearch_spec. }
    rewrite Heq. destruct (filterStatus st) as [|s].
    + apply List.filter_ext. intros m. reflexivity.
    + rewrite filter_filter_andb. reflexivity.
Qed.

(** C5. The filtered view is a function of the inventory, the status
    filter and the search term alone; it keeps exactly the records that
    pass the status filter AND the search, in the order they have in the
    inventory. [f_all] passes every record, another filter the records
    of that status; an empty term passes every record, another term the
    records whose name or (when there is one) description contains it,
    case ignored. *)
Theorem filtered_view_pure_ordered st :
  getFilteredMigrations st
  = filteredView (migrations st) (filterStatus st) (searchTerm st)
  ∧ sublist (getFilteredMigrations st) (migrations st)
  ∧ (∀ m, In m (getFilteredMigrations st) ↔
          In m (migrations st)
          ∧ passesStatus (filterStatus st) m = true
          ∧ passesSearch (searchTerm st) m = true)
  ∧ (∀ m, passesStatus f_all m = true)
  ∧ (∀ s m, passesStatus (f_only s) m = true ↔ status m = s)
  ∧ (∀ m, passesSearch [] m = true)
  ∧ (∀ c term m, passesSearch (c :: term) m = true ↔
       containsIgnoringCase (name m) (c :: term) = true
       ∨ ∃ d, descriptionOf m = Some d ∧ containsIgnoringCase d (c :: term) = true).
Proof.
  rewrite getFilteredMigrations_view. unfold filteredView.
  split; [reflexivity|]. split; [apply filter_sublist|].
  split; [|split; [|split; [|split]]].
  - intros m. rewrite List.filter_In, andb_true_iff. tauto.
  - reflexivity.
  - intros s m. simpl. apply bool_decide_eq_true.
  - reflexivity.
  - intros c term m. simpl. rewrite orb_true_iff. split.
    + intros [Hn|Hd]; [by left|right].
      destruct (descriptionOf m) as [d|]; [eauto|discriminate].
    + intros [Hn|(d & Hd & Hc)]; [by left|right]. by rewrite Hd.
Qed.
End FilterFacts.

(** ** Selection *)

Section SelectionFacts.
Context `{Host}.

Lemma getFilteredMigrations_log message type st :
  getFilteredMigrations (log message type st) = getFilteredMigrations st.
Proof. reflexivity. Qed.

Lemma getFilteredMigrations_withSelectedIndex i st :
  getFilteredMigrations (withSelectedIndex i st) = getFilteredMigrations st.
Proof. reflexivity. Qed.

Lemma getFilteredMigrations_updateMigrationsList st :
  getFilteredMigrations (updateMigrationsList st) = getFilteredMigrations st.
Proof. unfold updateMigrationsList. by destruct (_ >=? _). Qed.

Lemma selectedIndex_updateMigrationsList st :
  selectedIndex (updateMigrationsList st)
  = if selectedIndex st >=? Z.of_nat (length (getFilteredMigrations st))
    then Z.max 0 (Z.of_nat (length (getFilteredMigrations st)) - 1)
    else selectedIndex st.
Proof. unfold updateMigrationsList. by destruct (_ >=? _). Qed.

Lemma viewChange_selectedIndex st st' :
  viewChange st st' →
  selectedIndex st'
  = if selectedIndex st >=? Z.of_nat (length (getFilteredMigrations st'))
    then Z.max 0 (Z.of_nat (length (getFilteredMigrations st')) - 1)
    else selectedIndex st.
Proof.
  intros [|value].
  - unfold cycleFilter, applyFilters.
    rewrite getFilteredMigrations_log, getFilteredMigrations_updateMigrationsList.
    change (selectedIndex (log ?m ?t ?s)) with (selectedIndex s).
    by rewrite selectedIndex_updateMigrationsList.
  - unfold searchSubmit, applyFilters.
    rewrite getFilteredMigrations_updateMigrationsList.
    by rewrite selectedIndex_updateMigrationsList.
Qed.

(** C7. After a change of filter or of search term, a selection that is
    at or beyond the length of the new filtered list becomes
    [max(0, length - 1)], and a selection inside it is kept; so index 4
    becomes 1 when the new list has two records, and a selection that is
    not negative becomes 0 when the new list is empty. *)
Theorem selection_clamped_on_view_change st st' :
  viewChange st st' →
  let n := Z.of_nat (length (getFilteredMigrations st')) in
  (selectedIndex st >= n → selectedIndex st' = Z.max 0 (n - 1))
  ∧ (selectedIndex st < n → selectedIndex st' = selectedIndex st)
  ∧ (selectedIndex st = 4 → n = 2 → selectedIndex st' = 1)
  ∧ (0 <= selectedIndex st → n = 0 → selectedIndex st' = 0).
Proof.
  intros Hch n. rewrite (viewChange_selectedIndex _ _ Hch). fold n.
  destruct (Z.geb_spec (selectedIndex st) n); repeat split; intros; lia.
Qed.
End SelectionFacts.

(** ** Regular expressions of the program *)

Section RegexFacts.

Lemma star_total {R} (p : N → bool) (s : jsstring) (f : jsstring → R) :
  star p s (fun s' => Some (f s')) = Some (f (dropWhile p s)).
Proof.
  induction s as [|c s IH]; simpl; [reflexivity|].
  destruct (p c); [by rewrite IH|reflexivity].
Qed.

Lemma length_dropWhile p s : (length (dropWhile p s) <= length s)%nat.
Proof. induction s as [|c s IH]; simpl; [lia|]. destruct (p c); simpl; lia. Qed.

Lemma take_dropWhile p s :
  take (length s - length (dropWhile p s)) s = takeWhile p s.
Proof.
  induction s as [|c s IH]; simpl; [reflexivity|].
  destruct (p c); simpl.
  - pose proof (length_dropWhile p s).
    replace (S (length s) - length (dropWhile p s))%nat
      with (S (length s - length (dropWhile p s))) by lia.
    simpl. by rewrite IH.
  - by rewrite Nat.sub_diag.
Qed.

Lemma take_dropWhile_cons p c s :
  take (length (c :: s) - length (dropWhile p s)) (c :: s) = c :: takeWhile p s.
Proof.
  pose proof (length_dropWhile p s).
  change (length (c :: s)) with (S (length s)).
  rewrite Nat.sub_succ_l by lia. simpl. by rewrite take_dropWhile.
Qed.

Lemma takeWhile_app_stop p s c r :
  p c = false → takeWhile p (s ++ c :: r) = takeWhile p s.
Proof.
  intros Hc. induction s as [|x s IH]; simpl; [by rewrite Hc|].
  destruct (p x); [by rewrite IH|reflexivity].
Qed.

Lemma search_unfold r i s :
  search r i s
  = match run r s None (fun s' cap => Some (mkMatch i s' cap)) with
    | Some m => Some m
    | None => match s with [] => None | _ :: s' => search r (S i) s' end
    end.
Proof. by destruct s. Qed.

Lemma run_reDigits_digit {R} c s (k : jsstring → option jsstring → option R) :
  isDigit c = true →
  run reDigits (c :: s) None k
  = star isDigit s (fun s' => k s' (Some (take (length (c :: s) - length s') (c :: s)))).
Proof. intros Hc. unfold reDigits. cbn [run]. by rewrite Hc. Qed.

Lemma run_reDigits_None {R} s (k : jsstring → option jsstring → option R) :
  leadingDigitRun s = None → run reDigits s None k = None.
Proof.
  unfold leadingDigitRun, reDigits. cbn [run].
  destruct s as [|c s]; [reflexivity|]. simpl.
  by destruct (isDigit c).
Qed.

Lemma leadingDigitRun_cons_digit c s :
  isDigit c = true → leadingDigitRun (c :: s) = Some (c :: takeWhile isDigit s).
Proof. intros Hc. unfold leadingDigitRun. simpl. by rewrite Hc. Qed.

Lemma leadingDigitRun_cons_other c s :
  isDigit c = false → leadingDigitRun (c :: s) = None.
Proof. intros Hc. unfold leadingDigitRun. simpl. by rewrite Hc. Qed.

(** [/^(\d+)/] finds the leading digit run. *)
Lemma matchAt_reDigits s :
  group1 (matchAt reDigits s) = leadingDigitRun s.
Proof.
  unfold matchAt. destruct s as [|c s]; [reflexivity|].
  destruct (isDigit c) eqn:Hc.
  - rewrite run_reDigits_digit by done. cbv beta.
    rewrite (star_total isDigit s
               (fun s' => mkMatch 0 s' (Some (take (length (c :: s) - length s') (c :: s))))).
    cbn [group1 m_group1].
    by rewrite take_dropWhile_cons, leadingDigitRun_cons_digit.
  - rewrite run_reDigits_None; by rewrite leadingDigitRun_cons_other.
Qed.

(** [/(\d+)/] finds the first digit run. *)
Lemma search_reDigits s i :
  group1 (search reDigits i s) = firstDigitRun s.
Proof.
  revert i. induction s as [|c s IH]; intros i; [reflexivity|].
  rewrite search_unfold. unfold firstDigitRun. cbn [dropWhile].
  destruct (isDigit c) eqn:Hc; cbn [negb].
  - rewrite run_reDigits_digit by done. cbv beta.
    rewrite (star_total isDigit s
               (fun s' => mkMatch i s' (Some (take (length (c :: s) - length s') (c :: s))))).
    cbn [group1 m_group1].
    by rewrite take_dropWhile_cons, leadingDigitRun_cons_digit.
  - rewrite run_reDigits_None by (by apply leadingDigitRun_cons_other).
    apply IH.
Qed.
Lemma leadingDigitRun_truthy s d : leadingDigitRun s = Some d → truthy d = true.
Proof.
  unfold leadingDigitRun. destruct (takeWhile isDigit s) eqn:E; [discriminate|].
  by intros [= <-].
Qed.

(** [/\.(ts|js)$/] matches at the head of [s] only when [s] is a dot and
    two more code units, and leaves nothing after the match. *)
Lemma run_reExtension_Some s i m :
  run reExtension s None (fun s' cap => Some (mkMatch i s' cap)) = Some m →
  m_index m = i ∧ m_rest m = [] ∧ ∃ r, s = 46%N :: r.
Proof.
  unfold reExtension. cbn [run]. intros Hrun.
  destruct s as [|c s]; [discriminate|].
  destruct (N.eqb_spec c 46) as [->|]; [|discriminate].
  repeat match type of Hrun with
         | context [match ?l with [] => _ | _ :: _ => _ end] =>
             destruct l; cbn in Hrun
         | context [if ?b then _ else _] => destruct b; cbn in Hrun
         end; try discriminate;
    injection Hrun as <-; cbn; eauto.
Qed.

Lemma search_reExtension s i m :
  search reExtension i s = Some m →
  ∃ pre r, s = pre ++ 46%N :: r ∧ m_index m = (i + length pre)%nat ∧ m_rest m = [].
Proof.
  revert i. induction s as [|c s IH]; intros i; rewrite search_unfold.
  - discriminate.
  - destruct (run reExtension (c :: s) None _) as [m'|] eqn:Hrun.
    + intros [= <-]. apply run_reExtension_Some in Hrun as (Hi & Hr & r & Hs).
      exists [], r. simpl. rewrite Nat.add_0_r. done.
    + intros Hs. apply IH in Hs as (pre & r & -> & Hi & Hr).
      exists (c :: pre), r. simpl. split; [done|]. split; [lia|done].
Qed.

(** Cutting the extension off a file name leaves its leading digit run
    as it is. *)
Lemma leadingDigitRun_baseName file :
  leadingDigitRun (replaceFirst reExtension file) = leadingDigitRun file.
Proof.
  unfold replaceFirst. destruct (search reExtension 0 file) as [m|] eqn:Hs; [|reflexivity].
  apply search_reExtension in Hs as (pre & r & -> & Hi & Hr).
  rewrite Hi, Hr. simpl. rewrite take_app_length, app_nil_r.
  unfold leadingDigitRun. by rewrite takeWhile_app_stop.
Qed.

(** The test of [loadMigrations] for one record. *)
Lemma isApplied_true appliedMigrations m :
  isApplied appliedMigrations m = true ↔
  ∃ tok d, In tok appliedMigrations
           ∧ leadingDigitRun (name m) = Some d ∧ firstDigitRun tok = Some d.
Proof.
  unfold isApplied. rewrite existsb_exists.
  rewrite matchAt_reDigits, leadingDigitRun_baseName.
  split.
  - intros (tok & Hin & Htest). rewrite search_reDigits in Htest.
    destruct (leadingDigitRun (name m)) as [a|]; [|discriminate].
    destruct (firstDigitRun tok) as [b|] eqn:Hb; [|discriminate].
    apply andb_true_iff in Htest as [_ Heq]. apply bool_decide_eq_true in Heq as ->.
    eauto.
  - intros (tok & d & Hin & Hm & Ht). exists tok. split; [done|].
    rewrite search_reDigits, Hm, Ht.
    rewrite (leadingDigitRun_truthy _ _ Hm). simpl. by apply bool_decide_eq_true.
Qed.
End RegexFacts.

(** The applied-name pattern on some lines. The name is what follows the
    ordinal; when nothing follows it, the ordinal gives its last digit
    back to the name; colour codes are removed from the name. *)
Example applied_name_after_ordinal :
  parseAppliedMigrations (str "[X] 1 Init100") = [str "Init100"].
Proof. reflexivity. Qed.

Example applied_name_check_mark :
  parseAppliedMigrations (checkMark :: str " 12 AddUsers1700000000000")
  = [str "AddUsers1700000000000"].
Proof. reflexivity. Qed.

Example applied_name_without_name :
  parseAppliedMigrations (str "[X] 1700") = [str "0"].
Proof. reflexivity. Qed.

Example applied_name_colours_removed :
  parseAppliedMigrations (str "[X] 1 " ++ 27%N :: str "[32mInit100" ++ 27%N :: str "[0m")
  = [str "Init100"].
Proof. reflexivity. Qed.

Example unapplied_line_skipped :
  parseAppliedMigrations (str "[ ] 2 AddUsers200") = [].
Proof. reflexivity. Qed.

(** ** Scanning and sorting *)

Section ScanFacts.
Context `{Host}.

Lemma bind_Ok {A B} (m : IO A) (f : A → IO B) t b :
  m ≫= f = (t, Ok b) →
  ∃ t1 a t2, m = (t1, Ok a) ∧ f a = (t2, Ok b) ∧ t = t1 ++ t2.
Proof.
  unfold mbind, IO_bind. destruct m as [t1 [a|e]]; [|discriminate].
  destruct (f a) as [t2 r] eqn:Hf. intros [= <- ->]. eauto 10.
Qed.

Lemma scanFile_Ok env dir file t m :
  scanFile env dir file = (t, Ok m) →
  name m = file ∧ scanned m.
Proof.
  unfold scanFile. intros Hb.
  apply bind_Ok in Hb as (t1 & stats & t2 & _ & Hb & _).
  apply bind_Ok in Hb as (t3 & content & t4 & _ & Hb & _).
  injection Hb as _ <-. simpl. split; [reflexivity|]. split; [reflexivity|].
  simpl. intros d Hd. by rewrite matchAt_reDigits, Hd.
Qed.

Lemma scanFiles_Ok env dir files t ms :
  scanFiles env dir files = (t, Ok ms) →
  map name ms = files ∧ Forall scanned ms.
Proof.
  revert t ms. induction files as [|file files IH]; intros t ms; simpl.
  - intros [= _ <-]. by split.
  - intros Hb.
    apply bind_Ok in Hb as (t1 & m & t2 & Hm & Hb & _).
    apply bind_Ok in Hb as (t3 & ms' & t4 & Hms & Hb & _).
    injection Hb as _ <-. apply scanFile_Ok in Hm as [Hn Hs].
    apply IH in Hms as [Hns Hss]. simpl. split; [by rewrite Hn, Hns|by constructor].
Qed.

Lemma insertByTimestamp_Permutation m l :
  Permutation (insertByTimestamp m l) (m :: l).
Proof.
  induction l as [|x l IH]; simpl; [reflexivity|].
  destruct (timestamp m <=? timestamp x); [reflexivity|].
  rewrite IH. apply perm_swap.
Qed.

Lemma sortByTimestamp_Permutation l : Permutation (sortByTimestamp l) l.
Proof.
  induction l as [|x l IH]; simpl; [reflexivity|].
  rewrite insertByTimestamp_Permutation. by constructor.
Qed.

Lemma insertByTimestamp_HdRel a m l :
  byTimestamp a m → HdRel byTimestamp a l → HdRel byTimestamp a (insertByTimestamp m l).
Proof.
  intros Ham Hl. destruct l as [|x l]; simpl; [by constructor|].
  destruct (timestamp m <=? timestamp x); constructor; [done|].
  by inversion Hl.
Qed.

Lemma insertByTimestamp_Sorted m l :
  Sorted byTimestamp l → Sorted byTimestamp (insertByTimestamp m l).
Proof.
  induction 1 as [|x l Hs IH Hhd]; simpl; [by repeat constructor|].
  destruct (Z.leb_spec (timestamp m) (timestamp x)) as [Hle|Hgt].
  - constructor; [by constructor|]. by constructor.
  - constructor; [exact IH|].
    apply insertByTimestamp_HdRel; [unfold byTimestamp; lia|done].
Qed.

Lemma sortByTimestamp_Sorted l : Sorted byTimestamp (sortByTimestamp l).
Proof.
  induction l as [|x l IH]; simpl; [constructor|].
  by apply insertByTimestamp_Sorted.
Qed.

Lemma Sorted_ascending l : Sorted byTimestamp l → ascending l.
Proof.
  induction 1 as [|x l Hs IH Hhd]; intros i a b Ha Hb; [done|].
  destruct i as [|i]; simpl in *.
  - injection Ha as <-. destruct l as [|y l]; [done|].
    injection Hb as <-. by inversion Hhd.
  - by eapply IH.
Qed.

Lemma ascending_fmap (f : Migration → Migration) l :
  (∀ m, timestamp (f m) = timestamp m) → ascending l → ascending (map f l).
Proof.
  intros Hf Hl i a b Ha Hb.
  change (map f l) with (f <$> l) in *. rewrite list_lookup_fmap in Ha, Hb.
  destruct (l !! i) as [a'|] eqn:Ea; [|discriminate].
  destruct (l !! S i) as [b'|] eqn:Eb; [|discriminate].
  injection Ha as <-. injection Hb as <-. rewrite !Hf. by eapply Hl.
Qed.

Lemma scanDirectory_Ok env dir t ms :
  scanDirectory env dir = (t, Ok ms) →
  Forall scanned ms ∧ Sorted byTimestamp ms.
Proof.
  unfold scanDirectory. intros Hb.
  apply bind_Ok in Hb as (t1 & u & t2 & _ & Hb & _).
  apply bind_Ok in Hb as (t3 & files & t4 & _ & Hb & _).
  apply bind_Ok in Hb as (t5 & ms0 & t6 & Hms & Hb & _).
  injection Hb as _ <-. apply scanFiles_Ok in Hms as [_ Hss]. split.
  - eapply Permutation_Forall; [|exact Hss]. symmetry. apply sortByTimestamp_Permutation.
  - apply sortByTimestamp_Sorted.
Qed.

Lemma reconcile_ascending toks ms : ascending ms → ascending (reconcile toks ms).
Proof.
  apply ascending_fmap. intros m. by destruct (isApplied toks m).
Qed.

Lemma reconciled_ascending ms answer : ascending ms → ascending (reconciled ms answer).
Proof. destruct answer; simpl; [apply reconcile_ascending|done]. Qed.
End ScanFacts.

(** ** Loading *)

Section LoadFacts.
Context `{Host}.

Lemma withCache_same st : withCache (cache st) st = st.
Proof. by destruct st. Qed.

Lemma updateMigrationsList_eq st :
  updateMigrationsList st
  = withSelectedIndex (selectedIndex (updateMigrationsList st)) st.
Proof.
  unfold updateMigrationsList. destruct (_ >=? _); [reflexivity|by destruct st].
Qed.

Lemma migrations_updateMigrationsList st :
  migrations (updateMigrationsList st) = migrations st.
Proof. by rewrite updateMigrationsList_eq. Qed.

Lemma dbInfo_updateMigrationsList st :
  dbInfo (updateMigrationsList st) = dbInfo st.
Proof. by rewrite updateMigrationsList_eq. Qed.

Lemma cache_updateMigrationsList st :
  cache (updateMigrationsList st) = cache st.
Proof. by rewrite updateMigrationsList_eq. Qed.

Lemma isLoading_updateMigrationsList st :
  isLoading (updateMigrationsList st) = isLoading st.
Proof. by rewrite updateMigrationsList_eq. Qed.

Lemma logBuffer_updateMigrationsList st :
  logBuffer (updateMigrationsList st) = logBuffer st.
Proof. by rewrite updateMigrationsList_eq. Qed.

Lemma commands_updateMigrationsList st :
  commands (updateMigrationsList st) = commands st.
Proof. by rewrite updateMigrationsList_eq. Qed.

(** A logged entry is the last of the buffer, and the entries before it
    stay as long as they are among the last [MAX_LOG_ENTRIES]. *)
Lemma logBuffer_log_suffix message type st pre suf :
  logBuffer st = pre ++ suf →
  (length suf < MAX_LOG_ENTRIES)%nat →
  ∃ pre', logBuffer (log message type st) = pre' ++ suf ++ [mkLog type message].
Proof.
  intros Hbuf Hlen. unfold log. simpl. rewrite Hbuf, <- app_assoc.
  destruct (_ <? _)%nat eqn:Hlt; [|eauto].
  exists (drop (length (pre ++ suf ++ [mkLog type message]) - MAX_LOG_ENTRIES) pre).
  apply drop_app_le. rewrite !length_app. simpl. lia.
Qed.

Lemma loadBegin_loading now st :
  isLoading st = true → loadBegin now st = Returned st.
Proof. intros Hl. unfold loadBegin. by rewrite Hl. Qed.

Lemma loadBegin_hit now st e :
  isLoading st = false →
  cache st !! cacheKey = Some e →
  now - PerformanceCache.timestamp e <= PerformanceCache.ttl e →
  loadBegin now st
  = Returned (updateMigrationsList (withMigrations (PerformanceCache.data e) st)).
Proof.
  intros Hl He Hfresh. unfold loadBegin, PerformanceCache.get. rewrite Hl, He.
  destruct (Z.gtb_spec (now - PerformanceCache.timestamp e) (PerformanceCache.ttl e));
    [lia|]. by rewrite withCache_same.
Qed.

Lemma loadBegin_miss now st :
  isLoading st = false →
  (PerformanceCache.get cacheKey now (cache st)).1 = None →
  loadBegin now st
  = Started (log (str "Loading migrations...") info
               (withIsLoading true
                  (withCache (PerformanceCache.get cacheKey now (cache st)).2 st))).
Proof.
  intros Hl Hmiss. unfold loadBegin. rewrite Hl.
  destruct (PerformanceCache.get cacheKey now (cache st)) as [cached c].
  simpl in Hmiss. by rewrite Hmiss.
Qed.

(** What a run stores when the scan succeeds. *)
Lemma loadRun_scanned env st t ms :
  scanDirectory env (migrationsDir st) = (t, Ok ms) →
  let final := reconciled ms (exec_showStatus env) in
  migrations (loadRun env st).1 = final
  ∧ dbInfo (loadRun env st).1
    = mkDatabaseInfo (host (dbInfo st)) (database (dbInfo st))
        (succeeded (exec_showStatus env))
        (Z.of_nat (length final)) (countPending final) (now_check env)
  ∧ cache (loadRun env st).1
    = PerformanceCache.set cacheKey final (Some 60000) (now_set env) (cache st)
  ∧ isLoading (loadRun env st).1 = false
  ∧ (loadRun env st).2 = t ++ [EvExecSync (showStatus (commands st)) 10000].
Proof.
  intros Hscan. unfold loadRun. rewrite Hscan.
  destruct (exec_showStatus env) as [out|msg]; simpl;
    rewrite ?migrations_updateMigrationsList, ?dbInfo_updateMigrationsList,
      ?cache_updateMigrationsList, ?commands_updateMigrationsList; done.
Qed.

(** What a run leaves when the scan fails. *)
Lemma loadRun_failed env st t msg :
  scanDirectory env (migrationsDir st) = (t, Err msg) →
  loadRun env st
  = (withIsLoading false (log (str "Error loading migrations: " ++ msg) error st), t).
Proof. intros Hscan. unfold loadRun. by rewrite Hscan. Qed.

(** A load that finds no load in flight and nothing in the cache, and
    whose scan succeeds. *)
Lemma loadMigrations_fresh env st t ms :
  isLoading st = false →
  (PerformanceCache.get cacheKey (now_get env) (cache st)).1 = None →
  scanDirectory env (migrationsDir st) = (t, Ok ms) →
  let final := reconciled ms (exec_showStatus env) in
  migrations (loadMigrations env st).1 = final
  ∧ dbInfo (loadMigrations env st).1
    = mkDatabaseInfo (host (dbInfo st)) (database (dbInfo st))
        (succeeded (exec_showStatus env))
        (Z.of_nat (length final)) (countPending final) (now_check env)
  ∧ cache (loadMigrations env st).1
    = PerformanceCache.set cacheKey final (Some 60000) (now_set env)
        (PerformanceCache.get cacheKey (now_get env) (cache st)).2
  ∧ isLoading (loadMigrations env st).1 = false
  ∧ (loadMigrations env st).2 = t ++ [EvExecSync (showStatus (commands st)) 10000].
Proof.
  intros Hl Hmiss Hscan final. unfold loadMigrations. rewrite loadBegin_miss by done.
  exact (loadRun_scanned env
           (log (str "Loading migrations...") info
              (withIsLoading true
                 (withCache (PerformanceCache.get cacheKey (now_get env) (cache st)).2 st)))
           t ms Hscan).
Qed.
End LoadFacts.

(** ** The invariant of the shell *)

Section Invariant.
Context `{Host}.

Lemma wellFormed_ext st st' :
  migrations st' = migrations st →
  cache st' = cache st →
  isLoading st' = isLoading st →
  wellFormed st → wellFormed st'.
Proof. unfold wellFormed. by intros -> -> ->. Qed.

Lemma wellFormed_new cwdMigrations config :
  wellFormed (newShell cwdMigrations config).
Proof.
  split; [|split]; simpl.
  - intros i a b Ha. by rewrite lookup_nil in Ha.
  - intros k e He. by rewrite lookup_empty in He.
  - discriminate.
Qed.

Lemma wellFormed_updateMigrationsList st :
  wellFormed st → wellFormed (updateMigrationsList st).
Proof.
  apply wellFormed_ext;
    [apply migrations_updateMigrationsList|apply cache_updateMigrationsList
    |apply isLoading_updateMigrationsList].
Qed.

Lemma wellFormed_loadBegin now st :
  wellFormed st →
  match loadBegin now st with
  | Returned st' => wellFormed st'
  | Started st' => wellFormed st' ∧ isLoading st' = true
  end.
Proof.
  intros Hwf. pose proof Hwf as (Hm & Hc & Hl). unfold loadBegin.
  destruct (isLoading st) eqn:Hload; [exact Hwf|].
  unfold PerformanceCache.get.
  destruct (cache st !! cacheKey) as [e|] eqn:He.
  - destruct (_ >? _).
    + split; [|reflexivity]. split; [exact Hm|]. split; simpl.
      * intros k e' He'. destruct (decide (k = cacheKey)) as [->|Hne].
        -- by rewrite lookup_delete_eq in He'.
        -- rewrite lookup_delete_ne in He' by done. by apply Hc in He' as [? _].
      * intros _. apply map_eq. intros k. rewrite lookup_empty.
        destruct (decide (k = cacheKey)) as [->|Hne]; [apply lookup_delete_eq|].
        rewrite lookup_delete_ne by done.
        destruct (cache st !! k) as [e'|] eqn:He'; [|reflexivity].
        by apply Hc in He' as [? _].
    + apply wellFormed_updateMigrationsList.
      split; [|split]; simpl; [by apply (Hc _ _ He)|exact Hc|by rewrite Hload].
  - split; [|reflexivity]. split; [exact Hm|]. split; simpl; [exact Hc|].
    intros _. apply map_eq. intros k. rewrite lookup_empty.
    destruct (cache st !! k) as [e'|] eqn:He'; [|reflexivity].
    apply Hc in He' as He''. destruct He'' as [-> _]. congruence.
Qed.

Lemma wellFormed_loadRun env st :
  wellFormed st → wellFormed (loadRun env st).1.
Proof.
  intros (Hm & Hc & Hl).
  destruct (scanDirectory env (migrationsDir st)) as [t [ms|msg]] eqn:Hscan.
  - destruct (loadRun_scanned env st t ms Hscan) as (Hmig & _ & Hcache & Hload & _).
    apply scanDirectory_Ok in Hscan as [_ Hsorted].
    assert (ascending (reconciled ms (exec_showStatus env))) as Hasc
      by (by apply reconciled_ascending, Sorted_ascending).
    split; [by rewrite Hmig|]. split.
    + rewrite Hcache. unfold PerformanceCache.set. intros k e He.
      destruct (decide (k = cacheKey)) as [->|Hne].
      * rewrite lookup_insert_eq in He. by injection He as <-.
      * rewrite lookup_insert_ne in He by done. by apply Hc.
    + by rewrite Hload.
  - rewrite (loadRun_failed env st t msg Hscan). simpl.
    split; [exact Hm|]. split; [exact Hc|discriminate].
Qed.

Lemma wellFormed_invalidate st :
  wellFormed st →
  wellFormed (withCache (PerformanceCache.invalidate cacheKey (cache st)) st).
Proof.
  intros (Hm & Hc & Hl). split; [exact Hm|]. split; simpl.
  - intros k e. rewrite lookup_invalidate.
    destruct (includes k cacheKey); [discriminate|apply Hc].
  - intros Hload. apply map_eq. intros k.
    rewrite lookup_invalidate, (Hl Hload), lookup_empty. by destruct (includes _ _).
Qed.

Lemma wellFormed_connectToDatabase probe st :
  wellFormed st → wellFormed (connectToDatabase probe st).1.
Proof.
  apply wellFormed_ext; unfold connectToDatabase; cbn [fst];
    destruct probe, (connected (dbInfo st)) eqn:Hconn; simpl;
    rewrite ?Hconn; reflexivity.
Qed.

Lemma wellFormed_executeCommand command description outcome st :
  wellFormed st → wellFormed (executeCommand command description outcome st).1.
Proof.
  apply wellFormed_ext; unfold executeCommand; simpl;
    destruct outcome as [[[|n]|] out err|msg];
    repeat match goal with |- context [if ?b then _ else _] => destruct b end;
    reflexivity.
Qed.

Lemma wellFormed_step st st' : wellFormed st → step st st' → wellFormed st'.
Proof.
  intros Hwf Hstep. destruct Hstep as
    [now st st' Hb|now st st' Hb|env st Hl|st|st|probe st|c d o st|st|value st|index st|m t st].
  - pose proof (wellFormed_loadBegin now st Hwf) as Hinv. rewrite Hb in Hinv. tauto.
  - pose proof (wellFormed_loadBegin now st Hwf) as Hinv. by rewrite Hb in Hinv.
  - by apply wellFormed_loadRun.
  - destruct Hwf as (Hm & Hc & Hl). split; [exact Hm|]. split; simpl; [|done].
    intros k e He. unfold PerformanceCache.clear in He. by rewrite lookup_empty in He.
  - by apply wellFormed_invalidate.
  - by apply wellFormed_connectToDatabase.
  - by apply wellFormed_executeCommand.
  - unfold cycleFilter, applyFilters.
    set (st1 := withFilterStatus _ st).
    apply (wellFormed_ext (updateMigrationsList st1)); [reflexivity..|].
    by apply wellFormed_updateMigrationsList.
  - unfold searchSubmit, applyFilters. by apply wellFormed_updateMigrationsList.
  - by destruct Hwf.
  - by destruct Hwf.
Qed.

Lemma reachable_wellFormed st : reachable st → wellFormed st.
Proof.
  induction 1 as [cwd config|st st' _ IH Hstep]; [apply wellFormed_new|].
  by eapply wellFormed_step.
Qed.

(** A load started in a reachable state ends in a reachable state. *)
Lemma reachable_loadMigrations env st :
  reachable st → reachable (loadMigrations env st).1.
Proof.
  intros Hr. unfold loadMigrations.
  pose proof (wellFormed_loadBegin (now_get env) st (reachable_wellFormed st Hr)) as Hinv.
  destruct (loadBegin (now_get env) st) as [st'|st'] eqn:Hb; simpl.
  - eapply reachable_step; [exact Hr|]. by eapply step_load_return.
  - eapply reachable_step.
    + eapply reachable_step; [exact Hr|]. by eapply step_load_begin.
    + apply step_load_finish. tauto.
Qed.
End Invariant.

(** ** Reconciliation *)

Section ReconcileFacts.
Context `{Host}.

Lemma reconcile_In toks ms r :
  In r (reconcile toks ms) →
  ∃ m, In m ms ∧ r = (if isApplied toks m then setStatus applied m else m).
Proof.
  unfold reconcile. rewrite in_map_iff. intros (m & <- & Hin). eauto.
Qed.

Lemma hasAppliedToken_name tokenRun output r m :
  name r = name m →
  hasAppliedToken tokenRun output r ↔ hasAppliedToken tokenRun output m.
Proof. intros Hn. unfold hasAppliedToken. by rewrite Hn. Qed.

Lemma reconcile_statusReconciled output ms :
  Forall scanned ms →
  statusReconciled firstDigitRun output (reconcile (parseAppliedMigrations output) ms).
Proof.
  intros Hscanned r Hr. apply reconcile_In in Hr as (m & Hm & ->).
  rewrite List.Forall_forall in Hscanned. destruct (Hscanned m Hm) as [Hpending _].
  pose proof (isApplied_true (parseAppliedMigrations output) m) as Hiff.
  destruct (isApplied (parseAppliedMigrations output) m) eqn:Happ.
  - split; [reflexivity|]. intros Hno. exfalso. apply Hno.
    apply (hasAppliedToken_name _ _ _ m); [reflexivity|]. by apply Hiff.
  - split; [|done]. intros Hhas. apply Hiff in Hhas. discriminate.
Qed.

(** C1 (amended). After a load whose status command answered [output],
    a record is Applied when its leading digit run equals, as a string,
    the first digit run that occurs anywhere in some applied-name token
    parsed from [output], and Pending when no token has it. *)
Theorem status_reconciled_by_first_digit_run env st t ms output :
  isLoading st = false →
  (PerformanceCache.get cacheKey (now_get env) (cache st)).1 = None →
  scanDirectory env (migrationsDir st) = (t, Ok ms) →
  exec_showStatus env = Ok output →
  statusReconciled firstDigitRun output (migrations (loadMigrations env st).1).
Proof.
  intros Hl Hmiss Hscan Hexec.
  destruct (loadMigrations_fresh env st t ms Hl Hmiss Hscan) as (-> & _).
  rewrite Hexec. simpl. apply reconcile_statusReconciled.
  by apply scanDirectory_Ok in Hscan as [? _].
Qed.

(** C3 (amended). In every state of the shell, and so after every load,
    the inventory is in ascending order of timestamp: of two adjacent
    records the earlier has a timestamp less than or equal to the
    later's. *)
Theorem inventory_ascending env st :
  reachable st →
  ascending (migrations st) ∧ ascending (migrations (loadMigrations env st).1).
Proof.
  intros Hr. split.
  - by apply reachable_wellFormed in Hr as [? _].
  - by apply (reachable_loadMigrations env), reachable_wellFormed in Hr as [? _].
Qed.

(** C10. A load that finds an unexpired entry under ["migrations"]
    makes the cached list the inventory, calls neither the file system
    nor the status command, and leaves the connection summary as it was. *)
Theorem cached_load_is_silent env st e :
  reachable st →
  cache st !! cacheKey = Some e →
  now_get env - PerformanceCache.timestamp e <= PerformanceCache.ttl e →
  migrations (loadMigrations env st).1 = PerformanceCache.data e
  ∧ (loadMigrations env st).2 = []
  ∧ dbInfo (loadMigrations env st).1 = dbInfo st
  ∧ cache (loadMigrations env st).1 = cache st.
Proof.
  intros Hr He Hfresh.
  apply reachable_wellFormed in Hr as (_ & _ & Hl).
  assert (isLoading st = false) as Hload.
  { destruct (isLoading st); [|reflexivity].
    rewrite Hl in He by done. by rewrite lookup_empty in He. }
  unfold loadMigrations. rewrite (loadBegin_hit _ _ e) by done. cbn [fst snd].
  by rewrite migrations_updateMigrationsList, dbInfo_updateMigrationsList,
    cache_updateMigrationsList.
Qed.
End ReconcileFacts.

(** ** A failing status command, and the three-file scenario *)

Section LoadOutcomes.
Context `{Host}.

Lemma countPending_all_pending ms :
  Forall (fun m => status m = pending) ms → countPending ms = Z.of_nat (length ms).
Proof.
  unfold countPending. induction 1 as [|m ms Hm _ IH]; simpl; [reflexivity|].
  rewrite Hm. simpl. lia.
Qed.

(** The last two entries of the log after a run whose status command
    failed. *)
Lemma loadRun_warning env st t ms msg :
  scanDirectory env (migrationsDir st) = (t, Ok ms) →
  exec_showStatus env = Err msg →
  ∃ pre,
    logBuffer (loadRun env st).1
    = pre ++ [mkLog warning (str "Could not fetch migration status: " ++ msg);
              mkLog success (str "Loaded " ++ showNat (length ms) ++ str " migrations")].
Proof.
  intros Hscan Hexec. unfold loadRun. rewrite Hscan, Hexec. cbv zeta. cbn [fst].
  set (st1 := log (str "Could not fetch migration status: " ++ msg) warning _).
  destruct (logBuffer_log_suffix (str "Could not fetch migration status: " ++ msg)
              warning (withDbInfo (withConnected false (dbInfo st)) st)
              (logBuffer st) [])
    as [pre1 Hpre1]; [by rewrite app_nil_r|unfold MAX_LOG_ENTRIES; simpl; lia|].
  fold st1 in Hpre1. simpl in Hpre1.
  set (st2 := updateMigrationsList _).
  assert (logBuffer st2 = pre1 ++ [mkLog warning (str "Could not fetch migration status: " ++ msg)])
    as Hst2 by (unfold st2; rewrite logBuffer_updateMigrationsList; exact Hpre1).
  destruct (logBuffer_log_suffix (str "Loaded " ++ showNat (length ms) ++ str " migrations")
              success st2 pre1 _ Hst2)
    as [pre2 Hpre2]; [unfold MAX_LOG_ENTRIES; simpl; lia|].
  exists pre2. exact Hpre2.
Qed.

(** C8. When the status command fails during a load (the scan having
    succeeded), every record of the inventory is Pending, [connected] is
    false, the failure is in the log as a warning, and the load completes:
    the scanned inventory is stored and cached, the counts are set and
    [isLoading] is false again. *)
Theorem status_failure_is_not_fatal env st t ms msg :
  isLoading st = false →
  (PerformanceCache.get cacheKey (now_get env) (cache st)).1 = None →
  scanDirectory env (migrationsDir st) = (t, Ok ms) →
  exec_showStatus env = Err msg →
  let st' := (loadMigrations env st).1 in
  Forall (fun m => status m = pending) (migrations st')
  ∧ connected (dbInfo st') = false
  ∧ In (mkLog warning (str "Could not fetch migration status: " ++ msg)) (logBuffer st')
  ∧ migrations st' = ms
  ∧ (∃ e, cache st' !! cacheKey = Some e ∧ PerformanceCache.data e = ms)
  ∧ migrationsCount (dbInfo st') = Z.of_nat (length ms)
  ∧ pendingCount (dbInfo st') = Z.of_nat (length ms)
  ∧ isLoading st' = false.
Proof.
  intros Hl Hmiss Hscan Hexec st'.
  destruct (loadMigrations_fresh env st t ms Hl Hmiss Hscan)
    as (Hmig & Hdb & Hcache & Hload & _).
  fold st' in Hmig, Hdb, Hcache, Hload. rewrite Hexec in Hmig, Hdb, Hcache.
  simpl in Hmig, Hdb, Hcache.
  assert (Forall (fun m => status m = pending) ms) as Hpending.
  { apply scanDirectory_Ok in Hscan as [Hsc _].
    eapply Forall_impl; [exact Hsc|]. by intros m [? _]. }
  rewrite Hmig, Hdb, Hcache, Hload. simpl.
  repeat split; try done.
  - unfold st', loadMigrations. rewrite loadBegin_miss by done. cbn [fst].
    edestruct (loadRun_warning env) as [pre ->]; [exact Hscan|exact Hexec|].
    apply in_or_app. right. by left.
  - eexists. unfold PerformanceCache.set. rewrite lookup_insert_eq. by split.
  - by apply countPending_all_pending.
Qed.
End LoadOutcomes.

Section ThreeFiles.
Context `{Host}.

Lemma three_timestamps_in_order (x y z : Z) :
  Permutation [x; y; z] [100; 200; 300] → x <= y → y <= z →
  x = 100 ∧ y = 200 ∧ z = 300.
Proof.
  intros Hperm Hxy Hyz.
  assert (NoDup [x; y; z]) as Hnd.
  { rewrite Hperm. repeat (apply NoDup_cons; split);
      rewrite ?elem_of_cons, ?elem_of_nil; [lia..|apply NoDup_nil_2]. }
  assert (∀ v, In v [x; y; z] → v = 100 ∨ v = 200 ∨ v = 300) as Hin.
  { intros v Hv. eapply Permutation_in in Hv; [|exact Hperm]. simpl in Hv. lia. }
  pose proof (Hin x ltac:(simpl; tauto)) as Hx.
  pose proof (Hin y ltac:(simpl; tauto)) as Hy.
  pose proof (Hin z ltac:(simpl; tauto)) as Hz.
  apply NoDup_cons in Hnd as [Hx' Hnd]. apply NoDup_cons in Hnd as [Hy' _].
  rewrite !elem_of_cons in Hx', Hy'. lia.
Qed.

Lemma scanned_timestamp m o :
  scanned m → leadingDigitRun (name m) = o → is_Some o → timestamp m = runValue o.
Proof. intros [_ Ht] Hm [d ->]. simpl. by apply Ht. Qed.

Lemma isApplied_false_no_token toks m d :
  leadingDigitRun (name m) = Some d →
  (∀ tok, In tok toks → firstDigitRun tok ≠ Some d) →
  isApplied toks m = false.
Proof.
  intros Hm Hno. destruct (isApplied toks m) eqn:Happ; [|reflexivity].
  apply isApplied_true in Happ as (tok & d' & Hin & Hm' & Ht).
  rewrite Hm in Hm'. injection Hm' as <-. by apply Hno in Hin.
Qed.

Lemma isApplied_true_token toks m d :
  leadingDigitRun (name m) = Some d →
  (∃ tok, In tok toks ∧ firstDigitRun tok = Some d) →
  isApplied toks m = true.
Proof. intros Hm (tok & Hin & Ht). apply isApplied_true. eauto. Qed.

(** C2. When the scan yields three files whose names begin with the
    digit runs 100, 200 and 300 and the status output has applied
    markers for 100 and 300 only, the inventory after the load is 100
    Applied, 200 Pending, 300 Applied, with [pendingCount] 1 and
    [migrationsCount] 3. *)
Theorem three_files_reconciled env st t ms output :
  isLoading st = false →
  (PerformanceCache.get cacheKey (now_get env) (cache st)).1 = None →
  scanDirectory env (migrationsDir st) = (t, Ok ms) →
  Permutation (map (fun m => leadingDigitRun (name m)) ms)
    [Some (str "100"); Some (str "200"); Some (str "300")] →
  exec_showStatus env = Ok output →
  (∃ tok, In tok (parseAppliedMigrations output) ∧ firstDigitRun tok = Some (str "100")) →
  (∃ tok, In tok (parseAppliedMigrations output) ∧ firstDigitRun tok = Some (str "300")) →
  (∀ tok, In tok (parseAppliedMigrations output) → firstDigitRun tok ≠ Some (str "200")) →
  let st' := (loadMigrations env st).1 in
  map (fun m => (timestamp m, status m)) (migrations st')
  = [(100, applied); (200, pending); (300, applied)]
  ∧ pendingCount (dbInfo st') = 1
  ∧ migrationsCount (dbInfo st') = 3.
Proof.
  intros Hl Hmiss Hscan Hperm Hexec H100 H300 H200 st'.
  destruct (loadMigrations_fresh env st t ms Hl Hmiss Hscan) as (Hmig & Hdb & _).
  fold st' in Hmig, Hdb. rewrite Hexec in Hmig, Hdb. simpl in Hmig, Hdb.
  apply scanDirectory_Ok in Hscan as [Hsc Hsorted].
  pose proof (Permutation_length Hperm) as Hlen. rewrite length_map in Hlen.
  destruct ms as [|a [|b [|c [|? ?]]]]; try discriminate Hlen. clear Hlen.
  simpl in Hperm.
  apply Forall_cons in Hsc as [Ha Hsc]. apply Forall_cons in Hsc as [Hb Hsc].
  apply Forall_cons in Hsc as [Hc _].
  (* each name begins with one of the three runs *)
  assert (∀ o, In o [leadingDigitRun (name a); leadingDigitRun (name b);
                     leadingDigitRun (name c)] →
               o = Some (str "100") ∨ o = Some (str "200") ∨ o = Some (str "300")) as Hin.
  { intros o Ho. eapply Permutation_in in Ho; [|exact Hperm]. simpl in Ho.
    destruct Ho as [<-|[<-|[<-|[]]]]; tauto. }
  pose proof (Hin (leadingDigitRun (name a)) ltac:(simpl; tauto)) as Hia.
  pose proof (Hin (leadingDigitRun (name b)) ltac:(simpl; tauto)) as Hib.
  pose proof (Hin (leadingDigitRun (name c)) ltac:(simpl; tauto)) as Hic.
  assert (∀ m, scanned m →
               In (leadingDigitRun (name m))
                 [leadingDigitRun (name a); leadingDigitRun (name b);
                  leadingDigitRun (name c)] →
               timestamp m = runValue (leadingDigitRun (name m))) as Hts.
  { intros m Hm Ho. apply (scanned_timestamp m _ Hm eq_refl).
    destruct (Hin _ Ho) as [->|[->| ->]]; eauto. }
  pose proof (Hts a Ha ltac:(simpl; tauto)) as Hta.
  pose proof (Hts b Hb ltac:(simpl; tauto)) as Htb.
  pose proof (Hts c Hc ltac:(simpl; tauto)) as Htc.
  (* the scan is sorted, so the three come in the order 100, 200, 300 *)
  pose proof (Sorted_ascending _ Hsorted) as Hasc.
  pose proof (Hasc 0%nat a b eq_refl eq_refl) as Hab.
  pose proof (Hasc 1%nat b c eq_refl eq_refl) as Hbc.
  apply (Permutation_map runValue) in Hperm. simpl in Hperm.
  change (parseInt (str "100")) with 100 in Hperm.
  change (parseInt (str "200")) with 200 in Hperm.
  change (parseInt (str "300")) with 300 in Hperm.
  rewrite <- Hta, <- Htb, <- Htc in Hperm.
  destruct (three_timestamps_in_order _ _ _ Hperm Hab Hbc) as (Ea & Eb & Ec).
  assert (∀ m v, timestamp m = runValue (leadingDigitRun (name m)) →
                 timestamp m = v →
                 leadingDigitRun (name m) = Some (str "100")
                 ∨ leadingDigitRun (name m) = Some (str "200")
                 ∨ leadingDigitRun (name m) = Some (str "300") →
                 (v = 100 → leadingDigitRun (name m) = Some (str "100"))
                 ∧ (v = 200 → leadingDigitRun (name m) = Some (str "200"))
                 ∧ (v = 300 → leadingDigitRun (name m) = Some (str "300"))) as Hrun.
  { intros m v Hm Hv [Ho|[Ho|Ho]]; rewrite Ho in Hm |- *; rewrite Hm in Hv;
      vm_compute in Hv; subst v; repeat split; intros; (done || lia). }
  destruct (Hrun a 100 Hta Ea Hia) as (Hra & _).
  destruct (Hrun b 200 Htb Eb Hib) as (_ & Hrb & _).
  destruct (Hrun c 300 Htc Ec Hic) as (_ & _ & Hrc).
  specialize (Hra eq_refl). specialize (Hrb eq_refl). specialize (Hrc eq_refl).
  (* the statuses *)
  pose proof (isApplied_true_token _ a _ Hra H100) as Haa.
  pose proof (isApplied_false_no_token _ b _ Hrb H200) as Hbb.
  pose proof (isApplied_true_token _ c _ Hrc H300) as Hcc.
  destruct Hb as [Hbp _].
  rewrite Hdb, Hmig. unfold reconcile, countPending. simpl.
  rewrite Haa, Hbb, Hcc. simpl. rewrite Ea, Eb, Ec, Hbp. simpl. done.
Qed.
End ThreeFiles.

(** ** Mutation commands *)

Section CommandFacts.
Context `{Host}.

Lemma createMigration_command name outcome env probe st :
  truthy (trim name) = true →
  head (createMigration name outcome env probe st).2
  = Some (EvSpawn (str "pnpm run migration:create migrations/" ++ name)).
Proof.
  intros Hname. unfold createMigration. rewrite Hname.
  unfold executeCommand. by destruct (invalidateAndRefresh _ _ _).
Qed.

Lemma generateMigration_command name outcome env probe st :
  truthy (trim name) = true →
  head (generateMigration name outcome env probe st).2
  = Some (EvSpawn (str "pnpm run migration:generate migrations/" ++ name)).
Proof.
  intros Hname. unfold generateMigration. rewrite Hname.
  unfold executeCommand. by destruct (invalidateAndRefresh _ _ _).
Qed.

Lemma applyMigrations_command outcome env probe st :
  head (applyMigrations true outcome env probe st).2
  = Some (EvSpawn (migrateUp (commands st))).
Proof.
  unfold applyMigrations, executeCommand. by destruct (invalidateAndRefresh _ _ _).
Qed.

Lemma revertMigration_command outcome env probe st :
  head (revertMigration true outcome env probe st).2
  = Some (EvSpawn (migrateDown (commands st))).
Proof.
  unfold revertMigration, executeCommand. by destruct (invalidateAndRefresh _ _ _).
Qed.

(** C9. With the configuration of the README, which sets all four
    mutation commands, apply-all and revert-last run the configured
    strings, but create and generate run the fixed [pnpm] commands with
    [migrations/] and the name appended, not the configured ones. *)
Theorem create_generate_not_configurable outcome env probe :
  let st := newShell (str "/app/migrations") readmeConfig in
  head (applyMigrations true outcome env probe st).2
  = Some (EvSpawn (str "npm run migrate:up"))
  ∧ head (revertMigration true outcome env probe st).2
    = Some (EvSpawn (str "npm run migrate:down"))
  ∧ head (createMigration (str "AddUsers") outcome env probe st).2
    = Some (EvSpawn (str "pnpm run migration:create migrations/AddUsers"))
  ∧ head (generateMigration (str "AddUsers") outcome env probe st).2
    = Some (EvSpawn (str "pnpm run migration:generate migrations/AddUsers"))
  ∧ ¬ startsWith (str "pnpm run migration:create migrations/AddUsers")
        (str "npm run migration:create") = true.
Proof.
  intros st. split; [|split; [|split; [|split]]].
  - by rewrite applyMigrations_command.
  - by rewrite revertMigration_command.
  - by rewrite createMigration_command.
  - by rewrite generateMigration_command.
  - by vm_compute.
Qed.
End CommandFacts.

(** * The properties on examples *)

(** C1 on an example: the file [100-a.ts] and the line [[X] 1 Init100]. *)
Lemma status_reconciled_by_first_digit_run_witness :
  statusReconciled firstDigitRun classNameOutput
    (migrations (@loadMigrations asciiHost
                   (exampleEnv [str "100-a.ts"] (Ok classNameOutput)) exampleShell).1).
Proof.
  eapply (@status_reconciled_by_first_digit_run asciiHost
            (exampleEnv [str "100-a.ts"] (Ok classNameOutput)) exampleShell).
  - reflexivity.
  - vm_compute. reflexivity.
  - vm_compute. reflexivity.
  - reflexivity.
Defined.

(** C1 as stated fails there: the record is Applied, and the only token,
    [Init100], does not begin with a digit. *)
Lemma status_not_reconciled_by_leading_digit_run :
  ¬ statusReconciled leadingDigitRun classNameOutput
      (migrations (@loadMigrations asciiHost
                     (exampleEnv [str "100-a.ts"] (Ok classNameOutput)) exampleShell).1).
Proof.
  intros Hclaim.
  destruct (Hclaim (exampleRecord (str "100-a.ts") 100 applied)) as [_ Hpending].
  - vm_compute. by left.
  - assert (applied = pending) as Habs; [|discriminate Habs].
    apply Hpending. intros (tok & d & Hin & _ & Htok).
    vm_compute in Hin. destruct Hin as [<-|[]]. vm_compute in Htok. discriminate.
Qed.

(** C2 on an example. *)
Lemma three_files_reconciled_witness :
  let st' := (@loadMigrations asciiHost
                (exampleEnv threeFiles (Ok threeFilesOutput)) exampleShell).1 in
  map (fun m => (timestamp m, status m)) (migrations st')
  = [(100, applied); (200, pending); (300, applied)]
  ∧ pendingCount (dbInfo st') = 1
  ∧ migrationsCount (dbInfo st') = 3.
Proof.
  eapply (@three_files_reconciled asciiHost
            (exampleEnv threeFiles (Ok threeFilesOutput)) exampleShell).
  - reflexivity.
  - vm_compute. reflexivity.
  - vm_compute. reflexivity.
  - vm_compute. reflexivity.
  - reflexivity.
  - exists (str "100-a"). split; [vm_compute; tauto|vm_compute; reflexivity].
  - exists (str "300-c"). split; [vm_compute; tauto|vm_compute; reflexivity].
  - intros tok Hin. vm_compute in Hin. destruct Hin as [<-|[<-|[]]]; vm_compute; discriminate.
Defined.

(** C3 on an example. *)
Lemma inventory_ascending_witness :
  ascending (migrations exampleShell)
  ∧ ascending (migrations (@loadMigrations asciiHost
                             (exampleEnv twinFiles (Ok [])) exampleShell).1).
Proof.
  apply (@inventory_ascending asciiHost). apply reachable_new.
Defined.

(** C3 as stated fails for a source file and its compiled twin: the two
    records have the same timestamp. *)
Lemma inventory_not_strictly_ascending :
  ¬ strictlyAscending
      (migrations (@loadMigrations asciiHost
                     (exampleEnv twinFiles (Ok [])) exampleShell).1).
Proof.
  intros Hstrict.
  specialize (Hstrict 0%nat (exampleRecord (str "100-a.ts") 100 pending)
                (exampleRecord (str "100-a.js") 100 pending)).
  assert (100 < 100) as Habs; [|lia].
  apply Hstrict; vm_compute; reflexivity.
Qed.

(** C7 on an example: five records, the last selected; the next filter
    leaves two. *)
Lemma selection_clamped_on_view_change_witness :
  selectedIndex (@cycleFilter asciiHost fiveShell) = 1.
Proof.
  apply (@selection_clamped_on_view_change asciiHost fiveShell
           (@cycleFilter asciiHost fiveShell) (change_filter fiveShell));
    reflexivity.
Defined.

(** C8 on an example. *)
Lemma status_failure_is_not_fatal_witness :
  let st' := (@loadMigrations asciiHost
                (exampleEnv threeFiles (Err (str "Command failed: pnpm run migration:show")))
                exampleShell).1 in
  Forall (fun m => status m = pending) (migrations st')
  ∧ connected (dbInfo st') = false
  ∧ In (mkLog warning (str "Could not fetch migration status: "
                       ++ str "Command failed: pnpm run migration:show"))
       (logBuffer st')
  ∧ length (migrations st') = 3%nat
  ∧ isLoading st' = false.
Proof.
  edestruct (@status_failure_is_not_fatal asciiHost
               (exampleEnv threeFiles (Err (str "Command failed: pnpm run migration:show")))
               exampleShell)
    as (H1 & H2 & H3 & H4 & _ & _ & _ & H8).
  - reflexivity.
  - vm_compute. reflexivity.
  - vm_compute. reflexivity.
  - reflexivity.
  - split; [exact H1|]. split; [exact H2|]. split; [exact H3|].
    split; [by rewrite H4|exact H8].
Defined.

(** C10 on an example: thirty seconds after a first load the directory is
    empty and the status command fails, and a second load still installs
    the cached list without calling either. *)
Lemma cached_load_is_silent_witness :
  let env := exampleEnvAt 31000 [] (Err (str "Command failed")) in
  migrations (@loadMigrations asciiHost env loadedShell).1 = migrations loadedShell
  ∧ (@loadMigrations asciiHost env loadedShell).2 = []
  ∧ dbInfo (@loadMigrations asciiHost env loadedShell).1 = dbInfo loadedShell.
Proof.
  intros env.
  edestruct (@cached_load_is_silent asciiHost env loadedShell
               (PerformanceCache.mkEntry (migrations loadedShell) 1002 60000))
    as (H1 & H2 & H3 & _).
  - apply reachable_loadMigrations, reachable_new.
  - vm_compute. reflexivity.
  - vm_compute. discriminate.
  - split; [exact H1|]. split; [exact H2|exact H3].
Defined.

(** C5 on an example: the Pending records whose name contains [B], case
    ignored. *)
Example filtered_view_example :
  map name (@getFilteredMigrations asciiHost
              (withSearchTerm (str "B") (withFilterStatus (f_only pending) fiveShell)))
  = [str "200-b.ts"].
Proof. reflexivity. Qed.


(** * Further properties *)

(** ** Substrings *)

Section StringFacts.

Lemma startsWith_spec s p : startsWith s p = true ↔ ∃ b, s = p ++ b.
Proof.
  revert s. induction p as [|x p IH]; intros s; simpl.
  - destruct s; split; eauto.
  - destruct s as [|y s].
    + split; [done|]. intros [b Hb]. discriminate.
    + simpl. rewrite andb_true_iff, N.eqb_eq, IH. split.
      * intros [-> [b ->]]. eauto.
      * intros [b [= -> ->]]. eauto.
Qed.

(** [s.includes(p)] holds exactly when [p] occurs in [s]. *)
Lemma includes_spec s p : includes s p = true ↔ ∃ a b, s = a ++ p ++ b.
Proof.
  induction s as [|c s IH].
  - destruct p as [|x p]; simpl.
    + split; [|done]. intros _. by exists [], [].
    + split; [done|]. intros (a & b & Hab). by destruct a.
  - change (includes (c :: s) p) with (startsWith (c :: s) p || includes s p).
    rewrite orb_true_iff, startsWith_spec, IH. split.
    + intros [[b Hb]|(a & b & ->)]; [by exists [], b|by exists (c :: a), b].
    + intros (a & b & Hab). destruct a as [|x a]; [left; by exists b|].
      right. injection Hab as -> ->. eauto.
Qed.

Lemma includes_nil s : includes s [] = true.
Proof. apply includes_spec. by exists [], s. Qed.
End StringFacts.

(** ** More on the cache *)

Section CacheMore.
Context {T : Type}.
Implicit Types (cache : gmap jsstring (PerformanceCache.CacheEntry T)).

(** X1. A second [set] on a key replaces the first whatever it held: the
    cache is the one a single [set] would give, and a read within the new
    ttl returns the new value. *)
Theorem cache_set_overwrites cache k (v1 v2 : T) t1 t2 now1 now2 :
  PerformanceCache.set k v2 t2 now2 (PerformanceCache.set k v1 t1 now1 cache)
  = PerformanceCache.set k v2 t2 now2 cache
  ∧ ∀ soon, soon - now2 <= default PerformanceCache.DEFAULT_TTL t2 →
      (PerformanceCache.get k soon
         (PerformanceCache.set k v2 t2 now2 (PerformanceCache.set k v1 t1 now1 cache))).1
      = Some v2.
Proof.
  unfold PerformanceCache.set. rewrite insert_insert_eq. split; [reflexivity|].
  intros soon Hsoon. unfold PerformanceCache.get. rewrite lookup_insert_eq. simpl.
  destruct (Z.gtb_spec (soon - now2) (default PerformanceCache.DEFAULT_TTL t2)); [lia|done].
Qed.

(** X2. [get(k)] never touches another key and never adds one: a missing
    key is a miss that leaves the cache as it is, a hit leaves the cache as
    it is, and in every case the entries of the other keys are unchanged. *)
Theorem cache_get_frame cache k now :
  (cache !! k = None → PerformanceCache.get k now cache = (None, cache))
  ∧ (∀ v, (PerformanceCache.get k now cache).1 = Some v →
          (PerformanceCache.get k now cache).2 = cache)
  ∧ (∀ k', k' ≠ k → (PerformanceCache.get k now cache).2 !! k' = cache !! k')
  ∧ (PerformanceCache.get k now cache).2 ⊆ cache.
Proof.
  unfold PerformanceCache.get. destruct (cache !! k) as [e|] eqn:He.
  - destruct (_ >? _); simpl.
    + split; [done|]. split; [done|]. split.
      * intros k' Hne. by rewrite lookup_delete_ne.
      * apply delete_subseteq.
    + done.
  - done.
Qed.

(** X3. A [set] without a ttl lives [DEFAULT_TTL] = 30000 ms: a read is a
    hit up to and including 30000 ms after the write and a miss after. *)
Theorem cache_default_ttl cache k (v : T) now later :
  (PerformanceCache.get k later (PerformanceCache.set k v None now cache)).1
  = if later - now >? 30000 then None else Some v.
Proof.
  unfold PerformanceCache.get, PerformanceCache.set. rewrite lookup_insert_eq. simpl.
  unfold PerformanceCache.DEFAULT_TTL. by destruct (_ >? _).
Qed.

(** X4. Every key contains the empty string, so [invalidate('')] empties
    the cache as [clear()] does. *)
Theorem invalidate_empty_pattern cache :
  PerformanceCache.invalidate [] cache = PerformanceCache.clear cache.
Proof.
  apply map_eq. intros k. rewrite lookup_invalidate, includes_nil.
  unfold PerformanceCache.clear. by rewrite lookup_empty.
Qed.

(** X5. [invalidate(s)] read on the keys themselves: a key of the form
    [a ++ s ++ b] is gone, a key not of that form keeps its entry; and a
    second [invalidate(s)] changes nothing more. *)
Theorem invalidate_by_occurrence cache s :
  (∀ a b, PerformanceCache.invalidate s cache !! (a ++ s ++ b) = None)
  ∧ (∀ k, (¬ ∃ a b, k = a ++ s ++ b) →
          PerformanceCache.invalidate s cache !! k = cache !! k)
  ∧ PerformanceCache.invalidate s (PerformanceCache.invalidate s cache)
    = PerformanceCache.invalidate s cache.
Proof.
  split; [|split].
  - intros a b. rewrite lookup_invalidate.
    by rewrite (proj2 (includes_spec (a ++ s ++ b) s)) by eauto.
  - intros k Hk. rewrite lookup_invalidate.
    destruct (includes k s) eqn:Hinc; [|reflexivity].
    exfalso. apply Hk. by apply includes_spec.
  - apply map_eq. intros k. rewrite !lookup_invalidate. by destruct (includes k s).
Qed.
End CacheMore.

(** X5 on an example: the key [a-migrations-b] goes, the key [status]
    stays. *)
Lemma invalidate_by_occurrence_witness :
  let c : gmap jsstring (PerformanceCache.CacheEntry nat) :=
    PerformanceCache.set (str "status") 1%nat None 0
      (PerformanceCache.set (str "a-migrations-b") 2%nat None 0 ∅) in
  PerformanceCache.invalidate (str "migrations") c !! str "a-migrations-b" = None
  ∧ PerformanceCache.invalidate (str "migrations") c !! str "status" = c !! str "status".
Proof.
  intros c.
  destruct (invalidate_by_occurrence c (str "migrations")) as (Hgone & Hkept & _).
  split.
  - exact (Hgone (str "a-") (str "-b")).
  - apply Hkept. intros (a & b & Hab).
    assert (includes (str "status") (str "migrations") = true) as Hinc
      by (apply includes_spec; eauto).
    vm_compute in Hinc. discriminate.
Defined.

(** ** The log buffer *)

Section LogFacts.
Context `{Host}.

Lemma logBuffer_log message type st :
  logBuffer (log message type st)
  = lastN MAX_LOG_ENTRIES (logBuffer st ++ [mkLog type message]).
Proof.
  unfold log, lastN. simpl.
  destruct (Nat.ltb_spec MAX_LOG_ENTRIES (length (logBuffer st ++ [mkLog type message])))
    as [Hlt|Hge]; [reflexivity|].
  replace (length (logBuffer st ++ [mkLog type message]) - MAX_LOG_ENTRIES)%nat
    with 0%nat by lia.
  reflexivity.
Qed.

Lemma length_logBuffer_log message type st :
  length (logBuffer (log message type st))
  = Nat.min (length (logBuffer st) + 1) MAX_LOG_ENTRIES.
Proof.
  rewrite logBuffer_log. unfold lastN. rewrite length_drop, length_app. simpl. lia.
Qed.

(** X6. [log] appends the entry and keeps the newest [MAX_LOG_ENTRIES]:
    the new entry is always the last; below the capacity nothing is
    dropped; at the capacity exactly the oldest entry is dropped. *)
Theorem log_keeps_newest message type st :
  last (logBuffer (log message type st)) = Some (mkLog type message)
  ∧ length (logBuffer (log message type st))
    = Nat.min (length (logBuffer st) + 1) MAX_LOG_ENTRIES
  ∧ ((length (logBuffer st) < MAX_LOG_ENTRIES)%nat →
     logBuffer (log message type st) = logBuffer st ++ [mkLog type message])
  ∧ (length (logBuffer st) = MAX_LOG_ENTRIES →
     logBuffer (log message type st) = drop 1 (logBuffer st) ++ [mkLog type message]).
Proof.
  split; [|split; [apply length_logBuffer_log|split]].
  - destruct (logBuffer_log_suffix message type st (logBuffer st) [])
      as [pre ->]; [by rewrite app_nil_r|unfold MAX_LOG_ENTRIES; simpl; lia|].
    simpl. by rewrite last_snoc.
  - intros Hlt. rewrite logBuffer_log. unfold lastN. rewrite length_app. simpl.
    by replace (length (logBuffer st) + 1 - MAX_LOG_ENTRIES)%nat with 0%nat by lia.
  - intros Heq. rewrite logBuffer_log. unfold lastN. rewrite length_app. simpl.
    replace (length (logBuffer st) + 1 - MAX_LOG_ENTRIES)%nat with 1%nat by lia.
    apply drop_app_le. unfold MAX_LOG_ENTRIES in Heq. lia.
Qed.

Lemma step_logStep st st' : step st st' → logStep st st'.
Proof.
  intros Hstep. destruct Hstep as
    [now st st' Hb|now st st' Hb|env st Hl|st|st|probe st|c d o st|st|value st|index st|m t st].
  - unfold loadBegin in Hb. destruct (isLoading st); [discriminate|].
    destruct (PerformanceCache.get cacheKey now (cache st)) as [[ms|] c]; [discriminate|].
    injection Hb as <-. right. eauto.
  - unfold loadBegin in Hb. destruct (isLoading st); [injection Hb as <-; by left|].
    destruct (PerformanceCache.get cacheKey now (cache st)) as [[ms|] c]; [|discriminate].
    injection Hb as <-. left. by rewrite logBuffer_updateMigrationsList.
  - right. unfold loadRun.
    destruct (scanDirectory env (migrationsDir st)) as [t [ms|msg]].
    + destruct (exec_showStatus env); simpl; eauto.
    + simpl. eauto.
  - by left.
  - by left.
  - unfold connectToDatabase. cbn [fst].
    destruct probe, (connected (dbInfo st)) eqn:Hc; simpl; rewrite ?Hc;
      first [by left|right; eauto].
  - right. unfold executeCommand. cbn [fst].
    destruct o as [[[|n]|] out err|msg];
      repeat match goal with |- context [if ?b then _ else _] => destruct b end; eauto.
  - right. unfold cycleFilter. eauto.
  - left. unfold searchSubmit, applyFilters. by rewrite logBuffer_updateMigrationsList.
  - by left.
  - right. eauto.
Qed.

(** X7. The log never holds more than [MAX_LOG_ENTRIES] = 1000 entries,
    in any state the shell can reach. *)
Theorem log_buffer_bounded st :
  reachable st → (length (logBuffer st) <= MAX_LOG_ENTRIES)%nat.
Proof.
  induction 1 as [cwd config|st st' _ IH Hstep]; [simpl; unfold MAX_LOG_ENTRIES; lia|].
  destruct (step_logStep _ _ Hstep) as [->|(m & t & st0 & ->)]; [exact IH|].
  rewrite length_logBuffer_log. lia.
Qed.
End LogFacts.

(** X7 on an example: the shell after a first load. *)
Lemma log_buffer_bounded_witness :
  (length (logBuffer loadedShell) <= MAX_LOG_ENTRIES)%nat.
Proof.
  apply (@log_buffer_bounded asciiHost).
  apply reachable_loadMigrations, reachable_new.
Defined.

(** ** What a step does to the inventory, the cache and the summary *)

Section StepFacts.
Context `{Host}.

Lemma get_cases {T} (k : jsstring) (now : Z)
    (c : gmap jsstring (PerformanceCache.CacheEntry T)) :
  (c !! k = None ∧ PerformanceCache.get k now c = (None, c))
  ∨ (∃ e, c !! k = Some e
          ∧ now - PerformanceCache.timestamp e > PerformanceCache.ttl e
          ∧ PerformanceCache.get k now c = (None, delete k c))
  ∨ (∃ e, c !! k = Some e
          ∧ now - PerformanceCache.timestamp e <= PerformanceCache.ttl e
          ∧ PerformanceCache.get k now c = (Some (PerformanceCache.data e), c)).
Proof.
  unfold PerformanceCache.get. destruct (c !! k) as [e|]; [|by left].
  right. destruct (Z.gtb_spec (now - PerformanceCache.timestamp e) (PerformanceCache.ttl e));
    [left|right]; exists e; repeat split; (done || lia).
Qed.

Lemma sameSummary_refl d : sameSummary d d.
Proof. by repeat split. Qed.

Lemma invalidate_subseteq {T} (s : jsstring)
    (c : gmap jsstring (PerformanceCache.CacheEntry T)) :
  PerformanceCache.invalidate s c ⊆ c.
Proof.
  apply map_subseteq_spec. intros k e. rewrite lookup_invalidate.
  by destruct (includes k s).
Qed.

Lemma connectToDatabase_frame probe st :
  migrations (connectToDatabase probe st).1 = migrations st
  ∧ cache (connectToDatabase probe st).1 = cache st
  ∧ isLoading (connectToDatabase probe st).1 = isLoading st
  ∧ sameSummary (dbInfo st) (dbInfo (connectToDatabase probe st).1)
  ∧ connected (dbInfo (connectToDatabase probe st).1) = succeeded probe.
Proof.
  unfold connectToDatabase. cbn [fst].
  destruct probe, (connected (dbInfo st)) eqn:Hc; simpl; rewrite ?Hc; simpl;
    repeat split; done.
Qed.

Lemma executeCommand_frame command description outcome st :
  migrations (executeCommand command description outcome st).1 = migrations st
  ∧ cache (executeCommand command description outcome st).1 = cache st
  ∧ isLoading (executeCommand command description outcome st).1 = isLoading st
  ∧ dbInfo (executeCommand command description outcome st).1 = dbInfo st.
Proof.
  unfold executeCommand. cbn [fst].
  destruct outcome as [[[|n]|] out err|msg];
    repeat match goal with |- context [if ?b then _ else _] => destruct b end;
    repeat split; reflexivity.
Qed.

Lemma step_cases st st' :
  step st st' →
  (migrations st' = migrations st ∧ cache st' ⊆ cache st
   ∧ sameSummary (dbInfo st) (dbInfo st'))
  ∨ (∃ e, cache st !! cacheKey = Some e
          ∧ migrations st' = PerformanceCache.data e
          ∧ cache st' = cache st ∧ dbInfo st' = dbInfo st)
  ∨ (∃ env t ms,
       isLoading st = true
       ∧ scanDirectory env (migrationsDir st) = (t, Ok ms)
       ∧ migrations st' = reconciled ms (exec_showStatus env)
       ∧ cache st'
         = PerformanceCache.set cacheKey (reconciled ms (exec_showStatus env))
             (Some 60000) (now_set env) (cache st)
       ∧ dbInfo st'
         = mkDatabaseInfo (host (dbInfo st)) (database (dbInfo st))
             (succeeded (exec_showStatus env))
             (Z.of_nat (length (reconciled ms (exec_showStatus env))))
             (countPending (reconciled ms (exec_showStatus env))) (now_check env)).
Proof.
  intros Hstep. destruct Hstep as
    [now st st' Hb|now st st' Hb|env st Hl|st|st|probe st|c d o st|st|value st|index st|m t st].
  - left. unfold loadBegin in Hb. destruct (isLoading st); [discriminate|].
    destruct (get_cases cacheKey now (cache st))
      as [[_ Hg]|[(e & _ & _ & Hg)|(e & _ & _ & Hg)]]; rewrite Hg in Hb;
      [|injection Hb as <-; simpl; split; [done|split; [apply delete_subseteq|apply sameSummary_refl]]|discriminate].
    injection Hb as <-. simpl. split; [done|]. split; [done|apply sameSummary_refl].
  - unfold loadBegin in Hb. destruct (isLoading st).
    { injection Hb as <-. left. split; [done|]. split; [done|apply sameSummary_refl]. }
    destruct (get_cases cacheKey now (cache st))
      as [[_ Hg]|[(e & _ & _ & Hg)|(e & He & _ & Hg)]]; rewrite Hg in Hb;
      [discriminate|discriminate|].
    injection Hb as <-. right. left. exists e.
    by rewrite migrations_updateMigrationsList, cache_updateMigrationsList,
      dbInfo_updateMigrationsList.
  - destruct (scanDirectory env (migrationsDir st)) as [t [ms|msg]] eqn:Hscan.
    + right. right. exists env, t, ms.
      destruct (loadRun_scanned env st t ms Hscan) as (Hm & Hd & Hc & _). done.
    + left. rewrite (loadRun_failed env st t msg Hscan). simpl.
      split; [done|]. split; [done|apply sameSummary_refl].
  - left. simpl. split; [done|]. split; [apply map_empty_subseteq|apply sameSummary_refl].
  - left. simpl. split; [done|]. split; [apply invalidate_subseteq|apply sameSummary_refl].
  - left. destruct (connectToDatabase_frame probe st) as (-> & -> & _ & Hs & _). done.
  - left. destruct (executeCommand_frame c d o st) as (-> & -> & _ & ->).
    split; [done|]. split; [done|apply sameSummary_refl].
  - left. unfold cycleFilter, applyFilters. set (st1 := withFilterStatus _ st).
    change (migrations (updateMigrationsList st1) = migrations st
            ∧ cache (updateMigrationsList st1) ⊆ cache st
            ∧ sameSummary (dbInfo st) (dbInfo (updateMigrationsList st1))).
    rewrite migrations_updateMigrationsList, cache_updateMigrationsList,
      dbInfo_updateMigrationsList.
    split; [done|]. split; [done|apply sameSummary_refl].
  - left. unfold searchSubmit, applyFilters.
    rewrite migrations_updateMigrationsList, cache_updateMigrationsList,
      dbInfo_updateMigrationsList.
    split; [done|]. split; [done|apply sameSummary_refl].
  - left. split; [done|]. split; [done|apply sameSummary_refl].
  - left. split; [done|]. split; [done|apply sameSummary_refl].
Qed.

(** A property of inventories that holds of the empty inventory and of
    the result of every load holds of the inventory, and of every cached
    inventory, in every state the shell can reach. *)
Lemma reachable_inventory (P : list Migration → Prop) :
  P [] →
  (∀ env dir t ms answer, scanDirectory env dir = (t, Ok ms) → P (reconciled ms answer)) →
  ∀ st, reachable st →
    P (migrations st) ∧ ∀ k e, cache st !! k = Some e → P (PerformanceCache.data e).
Proof.
  intros Hnil Hload st Hr.
  induction Hr as [cwd config|st st' _ [IHm IHc] Hstep].
  - split; [exact Hnil|]. intros k e He. simpl in He. by rewrite lookup_empty in He.
  - destruct (step_cases _ _ Hstep)
      as [(-> & Hsub & _)|[(e & He & -> & -> & _)|(env & t & ms & _ & Hscan & -> & -> & _)]].
    + split; [exact IHm|]. intros k e He. apply (IHc k).
      by eapply lookup_weaken.
    + split; [by eapply IHc|exact IHc].
    + split; [by eapply Hload|]. intros k e. unfold PerformanceCache.set.
      destruct (decide (k = cacheKey)) as [->|Hne].
      * rewrite lookup_insert_eq. intros [= <-]. simpl. by eapply Hload.
      * rewrite lookup_insert_ne by done. apply IHc.
Qed.
End StepFacts.

(** ** Invariants of the inventory and of the connection summary *)

Section InventoryInvariants.
Context `{Host}.

Lemma countPending_bounds ms : 0 <= countPending ms <= Z.of_nat (length ms).
Proof.
  unfold countPending. pose proof (List.filter_length_le
    (fun m => bool_decide (status m = pending)) ms). lia.
Qed.

Lemma reconcile_In_inv toks ms r :
  In r (reconcile toks ms) →
  ∃ m, In m ms ∧ name r = name m ∧ timestamp r = timestamp m
       ∧ (status r = status m ∨ status r = applied).
Proof.
  intros Hr. apply reconcile_In in Hr as (m & Hm & ->). exists m.
  destruct (isApplied toks m); simpl; tauto.
Qed.

Lemma reconciled_In_inv ms answer r :
  In r (reconciled ms answer) →
  ∃ m, In m ms ∧ name r = name m ∧ timestamp r = timestamp m
       ∧ (status r = status m ∨ status r = applied).
Proof.
  destruct answer as [out|msg]; simpl; [apply reconcile_In_inv|].
  intros Hr. exists r. tauto.
Qed.

Lemma call_Ok {A} ev (r : result A) t a : call ev r = (t, Ok a) → r = Ok a.
Proof. unfold call. by intros [= _ ->]. Qed.

(** The records of a scan are the migration files of the directory. *)
Lemma scanDirectory_names env dir t ms :
  scanDirectory env dir = (t, Ok ms) →
  ∃ files, fs_readdir env = Ok files
           ∧ Permutation (map name ms) (List.filter isMigrationFile files).
Proof.
  unfold scanDirectory. intros Hb.
  apply bind_Ok in Hb as (t1 & u & t2 & _ & Hb & _).
  apply bind_Ok in Hb as (t3 & files & t4 & Hfiles & Hb & _).
  apply bind_Ok in Hb as (t5 & ms0 & t6 & Hms & Hb & _).
  injection Hb as _ <-. apply call_Ok in Hfiles. exists files. split; [done|].
  apply scanFiles_Ok in Hms as [<- _].
  apply Permutation_map, sortByTimestamp_Permutation.
Qed.

(** X8. In every state the shell can reach the counts of the connection
    summary are those of the inventory ([migrationsCount] its length,
    [pendingCount] the number of its Pending records, so that
    [0 <= pendingCount <= migrationsCount]), and a cached inventory is the
    inventory itself: installing it from the cache changes nothing. *)
Theorem summary_counts_consistent st :
  reachable st →
  summaryConsistent st
  ∧ 0 <= pendingCount (dbInfo st) <= migrationsCount (dbInfo st).
Proof.
  intros Hr.
  assert (summaryConsistent st) as Hcons.
  { induction Hr as [cwd config|st st' Hr IH Hstep].
    - split; [reflexivity|]. split; [reflexivity|]. intros k e He.
      simpl in He. by rewrite lookup_empty in He.
    - destruct IH as (Hcount & Hpending & Hcache).
      pose proof (reachable_wellFormed st Hr) as (_ & _ & Hloading).
      destruct (step_cases _ _ Hstep)
        as [(Hm & Hsub & (_ & _ & Hc1 & Hc2 & _))
           |[(e & He & Hm & Hc & Hd)|(env & t & ms & Hl & Hscan & Hm & Hc & Hd)]];
        unfold summaryConsistent.
      + split; [by rewrite Hm, Hc1|]. split; [by rewrite Hm, Hc2|].
        intros k e He. rewrite Hm. apply (Hcache k). by eapply lookup_weaken.
      + pose proof (Hcache _ _ He) as Hsame. rewrite Hm, Hd, Hc, Hsame. done.
      + rewrite Hm, Hd, Hc. split; [reflexivity|]. split; [reflexivity|].
        intros k e. rewrite (Hloading Hl). unfold PerformanceCache.set.
        destruct (decide (k = cacheKey)) as [->|Hne].
        * rewrite lookup_insert_eq. by intros [= <-].
        * rewrite lookup_insert_ne, lookup_empty by done. discriminate. }
  split; [exact Hcons|]. destruct Hcons as (-> & -> & _). apply countPending_bounds.
Qed.

(** X9. No record is ever Failed: in every state the shell can reach each
    record of the inventory is Pending or Applied, so the view under the
    Failed filter is empty whatever the search term. *)
Theorem failed_never_occurs st :
  reachable st →
  (∀ m, In m (migrations st) → status m = pending ∨ status m = applied)
  ∧ getFilteredMigrations (withFilterStatus (f_only failed) st) = [].
Proof.
  intros Hr.
  assert (∀ m, In m (migrations st) → status m = pending ∨ status m = applied) as Hall.
  { apply (reachable_inventory
             (fun l => ∀ m, In m l → status m = pending ∨ status m = applied)); [done| |done].
    intros env dir t ms answer Hscan r Hr'.
    apply scanDirectory_Ok in Hscan as [Hsc _]. rewrite List.Forall_forall in Hsc.
    apply reconciled_In_inv in Hr' as (m & Hm & _ & _ & [Hs|Hs]); [|tauto].
    destruct (Hsc m Hm) as [Hp _]. left. congruence. }
  split; [exact Hall|].
  unfold getFilteredMigrations. simpl.
  assert (List.filter (fun m => bool_decide (status m = failed)) (migrations st) = []) as ->.
  { induction (migrations st) as [|m l IH]; [reflexivity|]. simpl.
    destruct (Hall m (or_introl eq_refl)) as [-> | ->]; simpl;
      apply IH; intros m' Hm'; apply Hall; by right. }
  by destruct (truthy (searchTerm st)).
Qed.


(** X11. The host and the database shown in the connection summary are
    the fixed [localhost] and [eternal_app] in every state the shell can
    reach, whatever [database] the configuration names. *)
Theorem host_and_database_fixed st :
  reachable st →
  host (dbInfo st) = str "localhost" ∧ database (dbInfo st) = str "eternal_app".
Proof.
  induction 1 as [cwd config|st st' _ [IHh IHd] Hstep]; [done|].
  destruct (step_cases _ _ Hstep)
    as [(_ & _ & (Hh & Hd & _))|[(e & _ & _ & _ & ->)|(env & t & ms & _ & _ & _ & _ & ->)]].
  - by rewrite Hh, Hd.
  - done.
  - done.
Qed.
End InventoryInvariants.

Lemma summary_counts_consistent_witness :
  summaryConsistent loadedShell
  ∧ 0 <= pendingCount (dbInfo loadedShell) <= migrationsCount (dbInfo loadedShell).
Proof.
  apply (@summary_counts_consistent asciiHost).
  apply reachable_loadMigrations, reachable_new.
Defined.

Lemma failed_never_occurs_witness :
  (∀ m, In m (migrations loadedShell) → status m = pending ∨ status m = applied)
  ∧ @getFilteredMigrations asciiHost (withFilterStatus (f_only failed) loadedShell) = [].
Proof.
  apply (@failed_never_occurs asciiHost).
  apply reachable_loadMigrations, reachable_new.
Defined.


Lemma host_and_database_fixed_witness :
  host (dbInfo (newShell (str "/app/migrations") readmeConfig)) = str "localhost"
  ∧ database (dbInfo (newShell (str "/app/migrations") readmeConfig)) = str "eternal_app".
Proof.
  apply (@host_and_database_fixed asciiHost). apply reachable_new.
Defined.

(** ** Connectivity, refresh and auto-refresh *)

Section RefreshFacts.
Context `{Host}.

(** X12. After [connectToDatabase] the [connected] flag says whether the
    probe succeeded, whatever it said before; the inventory, the cache and
    the other fields of the summary are untouched, the probe is the one
    outside call, and nothing at all changes (no log entry either) when
    the shell was connected and the probe succeeds. *)
Theorem connect_reports_probe probe st :
  connected (dbInfo (connectToDatabase probe st).1) = succeeded probe
  ∧ migrations (connectToDatabase probe st).1 = migrations st
  ∧ cache (connectToDatabase probe st).1 = cache st
  ∧ sameSummary (dbInfo st) (dbInfo (connectToDatabase probe st).1)
  ∧ (connectToDatabase probe st).2 = [EvExecSync (showStatus (commands st)) 5000]
  ∧ (connected (dbInfo st) = true → succeeded probe = true →
     (connectToDatabase probe st).1 = st).
Proof.
  destruct (connectToDatabase_frame probe st) as (Hm & Hc & _ & Hs & Hconn).
  repeat split; try done; try apply Hs.
  intros Hyes Hok. unfold connectToDatabase. cbn [fst]. rewrite Hyes.
  destruct probe; [by rewrite Hyes|discriminate].
Qed.

Lemma commands_loadMigrations env st :
  commands (loadMigrations env st).1 = commands st.
Proof.
  unfold loadMigrations, loadBegin. destruct (isLoading st); [reflexivity|].
  destruct (PerformanceCache.get cacheKey (now_get env) (cache st)) as [[ms|] c].
  - cbn [fst]. by rewrite commands_updateMigrationsList.
  - unfold loadRun. destruct (scanDirectory env _) as [t [ms|msg]]; [|reflexivity].
    destruct (exec_showStatus env); cbn [fst];
      match goal with
      | |- context [updateMigrationsList ?s] => rewrite (updateMigrationsList_eq s)
      end; reflexivity.
Qed.

Lemma refreshData_eq (silent : bool) env probe (st : Shell) :
  let st1 :=
    withCache (PerformanceCache.clear (cache (if silent then st
                                              else log (str "Refreshing data...") info st)))
      (if silent then st else log (str "Refreshing data...") info st) in
  refreshData silent env probe st
  = ((connectToDatabase probe (loadMigrations env st1).1).1,
     (loadMigrations env st1).2 ++ (connectToDatabase probe (loadMigrations env st1).1).2).
Proof.
  intros st1. unfold refreshData. fold st1.
  destruct (loadMigrations env st1) as [st2 t1]. simpl.
  by destruct (connectToDatabase probe st2) as [st3 t2].
Qed.

(** What a refresh leaves when no load is in flight and the scan
    succeeds. *)
Lemma refreshData_fresh silent env probe st t ms :
  isLoading st = false →
  scanDirectory env (migrationsDir st) = (t, Ok ms) →
  let final := reconciled ms (exec_showStatus env) in
  migrations (refreshData silent env probe st).1 = final
  ∧ connected (dbInfo (refreshData silent env probe st).1) = succeeded probe
  ∧ lastCheck (dbInfo (refreshData silent env probe st).1) = now_check env
  ∧ isLoading (refreshData silent env probe st).1 = false
  ∧ cache (refreshData silent env probe st).1
    = PerformanceCache.set cacheKey final (Some 60000) (now_set env) ∅
  ∧ (refreshData silent env probe st).2
    = t ++ [EvExecSync (showStatus (commands st)) 10000;
            EvExecSync (showStatus (commands st)) 5000].
Proof.
  intros Hl Hscan final. rewrite refreshData_eq. cbv zeta.
  set (st0 := if silent then st else log (str "Refreshing data...") info st).
  set (st1 := withCache _ st0).
  assert (isLoading st1 = false) as Hl1 by (unfold st1, st0; by destruct silent).
  assert (scanDirectory env (migrationsDir st1) = (t, Ok ms)) as Hscan1
    by (unfold st1, st0; by destruct silent).
  assert ((PerformanceCache.get cacheKey (now_get env) (cache st1)).1 = None) as Hmiss
    by reflexivity.
  destruct (loadMigrations_fresh env st1 t ms Hl1 Hmiss Hscan1)
    as (Hm & Hd & Hc & Hload & Ht).
  destruct (connectToDatabase_frame probe (loadMigrations env st1).1)
    as (Hm' & Hc' & Hl' & (_ & _ & _ & _ & Hlast) & Hconn).
  cbn [fst snd]. rewrite Hm', Hc', Hl', Hlast, Hconn, Hm, Hc, Hload, Hd, Ht.
  unfold connectToDatabase. cbn [snd].
  rewrite commands_loadMigrations.
  assert (commands st1 = commands st) as -> by (unfold st1, st0; by destruct silent).
  rewrite <- app_assoc. done.
Qed.

(** X13. A refresh never serves the cache: when no load is in flight it
    scans the directory and runs the status command even if the cache held
    an unexpired inventory, stores and caches what it found, and ends with
    [connected] saying whether the connectivity probe succeeded. *)
Theorem refresh_bypasses_cache silent env probe st t ms :
  isLoading st = false →
  scanDirectory env (migrationsDir st) = (t, Ok ms) →
  migrations (refreshData silent env probe st).1 = reconciled ms (exec_showStatus env)
  ∧ connected (dbInfo (refreshData silent env probe st).1) = succeeded probe
  ∧ cache (refreshData silent env probe st).1 !! cacheKey
    = Some (PerformanceCache.mkEntry (reconciled ms (exec_showStatus env))
              (now_set env) 60000)
  ∧ (refreshData silent env probe st).2
    = t ++ [EvExecSync (showStatus (commands st)) 10000;
            EvExecSync (showStatus (commands st)) 5000].
Proof.
  intros Hl Hscan.
  destruct (refreshData_fresh silent env probe st t ms Hl Hscan)
    as (Hm & Hconn & _ & _ & Hc & Ht).
  rewrite Hm, Hconn, Hc, Ht. split; [reflexivity|]. split; [reflexivity|].
  split; [|reflexivity]. unfold PerformanceCache.set. by rewrite lookup_insert_eq.
Qed.

(** X14. The auto-refresh tick does nothing while a load is in flight or
    when the last check is at most 30000 ms old; and after a tick whose
    reload succeeded, a second tick at most 30000 ms after that reload's
    check does nothing: no outside call, no change of state. *)
Theorem auto_refresh_debounced now env probe st t ms :
  isLoading st = false →
  now - lastCheck (dbInfo st) > 30000 →
  scanDirectory env (migrationsDir st) = (t, Ok ms) →
  (∀ now' env' probe' st',
     isLoading st' = true ∨ now' - lastCheck (dbInfo st') <= 30000 →
     autoRefreshTick now' env' probe' st' = (st', []))
  ∧ (autoRefreshTick now env probe st).2
    = t ++ [EvExecSync (showStatus (commands st)) 10000;
            EvExecSync (showStatus (commands st)) 5000]
  ∧ ∀ now2 env2 probe2,
      now2 - now_check env <= 30000 →
      autoRefreshTick now2 env2 probe2 (autoRefreshTick now env probe st).1
      = ((autoRefreshTick now env probe st).1, []).
Proof.
  intros Hl Hold Hscan.
  assert (∀ now' env' probe' st',
            isLoading st' = true ∨ now' - lastCheck (dbInfo st') <= 30000 →
            autoRefreshTick now' env' probe' st' = (st', [])) as Hidle.
  { intros now' env' probe' st' [Hl'|Hrecent]; unfold autoRefreshTick.
    - by rewrite Hl'.
    - destruct (Z.gtb_spec (now' - lastCheck (dbInfo st')) 30000); [lia|].
      by rewrite andb_false_r. }
  split; [exact Hidle|].
  assert (autoRefreshTick now env probe st = refreshData true env probe st) as ->.
  { unfold autoRefreshTick. rewrite Hl. simpl.
    destruct (Z.gtb_spec (now - lastCheck (dbInfo st)) 30000); [done|lia]. }
  destruct (refreshData_fresh true env probe st t ms Hl Hscan)
    as (_ & _ & Hlast & _ & _ & Ht).
  split; [exact Ht|]. intros now2 env2 probe2 Hsoon. apply Hidle. right. by rewrite Hlast.
Qed.
End RefreshFacts.

(** ** More on scanning and loading *)

Section ScanMore.
Context `{Host}.

Lemma bind_Ok_inv {A B} (m : IO A) (f : A → IO B) t1 a t2 r :
  m = (t1, Ok a) → f a = (t2, r) → m ≫= f = (t1 ++ t2, r).
Proof. intros -> Hf. unfold mbind, IO_bind. by rewrite Hf. Qed.

Lemma scanFiles_trace env dir files t ms :
  scanFiles env dir files = (t, Ok ms) →
  t = flat_map (fun file => [EvStat dir file; EvReadFile dir file]) files.
Proof.
  revert t ms. induction files as [|file files IH]; intros t ms; simpl.
  - by intros [= <- _].
  - intros Hb.
    apply bind_Ok in Hb as (t1 & m & t2 & Hm & Hb & ->).
    apply bind_Ok in Hb as (t3 & ms' & t4 & Hms & Hb & ->).
    injection Hb as <- _. apply IH in Hms as ->.
    unfold scanFile in Hm.
    apply bind_Ok in Hm as (ta & stats & tb & Hs & Hm & ->).
    apply bind_Ok in Hm as (tc & content & td & Hc & Hm & ->).
    injection Hm as <- _. unfold call in Hs, Hc.
    injection Hs as <- _. injection Hc as <- _. simpl. by rewrite app_nil_r.
Qed.

(** X15. A successful scan makes these calls and no other, in this
    order: [access] on the directory, [mkdir] only when [access] failed,
    [readdir], and then, for each listed file whose name ends in [.ts] or
    [.js] and in the order of the listing, [stat] followed by [readFile].
    No other file is looked at. *)
Theorem scan_reads_only_migration_files env dir t ms :
  scanDirectory env dir = (t, Ok ms) →
  ∃ files, fs_readdir env = Ok files ∧ t = scanTrace env dir files.
Proof.
  unfold scanDirectory. intros Hb.
  apply bind_Ok in Hb as (t1 & u & t2 & Hacc & Hb & ->).
  apply bind_Ok in Hb as (t3 & files & t4 & Hfiles & Hb & ->).
  apply bind_Ok in Hb as (t5 & ms0 & t6 & Hms & Hb & ->).
  injection Hb as <- _. apply scanFiles_trace in Hms as ->.
  unfold call in Hfiles. injection Hfiles as <- Hfiles. exists files.
  split; [exact Hfiles|]. unfold scanTrace.
  destruct (fs_access env).
  - unfold call in Hacc. injection Hacc as <- _. simpl. by rewrite app_nil_r.
  - apply bind_Ok in Hacc as (ta & u' & tb & Ha & Hmk & ->).
    unfold call in Ha, Hmk. injection Ha as <- _. injection Hmk as <- _.
    simpl. by rewrite app_nil_r.
Qed.

Lemma filter_eqb_insertByTimestamp v m l :
  List.filter (fun x => timestamp x =? v) (insertByTimestamp m l)
  = List.filter (fun x => timestamp x =? v) (m :: l).
Proof.
  induction l as [|x l IH]; [reflexivity|]. simpl insertByTimestamp.
  destruct (Z.leb_spec (timestamp m) (timestamp x)) as [Hle|Hgt]; [reflexivity|].
  change (List.filter ?p (x :: ?r)) with (if p x then x :: List.filter p r else List.filter p r).
  rewrite IH. simpl.
  destruct (Z.eqb_spec (timestamp x) v), (Z.eqb_spec (timestamp m) v);
    (reflexivity || lia).
Qed.

(** X16. The sort of the scan is a stable sort by timestamp: its result
    is in ascending order, holds the same records, and keeps records of
    equal timestamp in the order they had. *)
Theorem sort_by_timestamp_stable l :
  Sorted byTimestamp (sortByTimestamp l)
  ∧ Permutation (sortByTimestamp l) l
  ∧ ∀ v, List.filter (fun m => timestamp m =? v) (sortByTimestamp l)
         = List.filter (fun m => timestamp m =? v) l.
Proof.
  split; [apply sortByTimestamp_Sorted|]. split; [apply sortByTimestamp_Permutation|].
  intros v. induction l as [|x l IH]; [reflexivity|]. simpl sortByTimestamp.
  rewrite filter_eqb_insertByTimestamp. simpl. by rewrite IH.
Qed.

(** X17. A successful scan yields exactly one record per listed file
    whose name ends in [.ts] or [.js], named after the file and Pending;
    the names are distinct when the names of the listing are. *)
Theorem scan_one_record_per_migration_file env dir t ms :
  scanDirectory env dir = (t, Ok ms) →
  ∃ files, fs_readdir env = Ok files
           ∧ Permutation (map name ms) (List.filter isMigrationFile files)
           ∧ Forall (fun m => status m = pending) ms
           ∧ (NoDup files → NoDup (map name ms)).
Proof.
  intros Hscan.
  destruct (scanDirectory_names env dir t ms Hscan) as (files & Hfiles & Hperm).
  exists files. split; [exact Hfiles|]. split; [exact Hperm|]. split.
  - apply scanDirectory_Ok in Hscan as [Hsc _].
    eapply Forall_impl; [exact Hsc|]. by intros m [? _].
  - intros Hnd. rewrite Hperm. apply NoDup_ListNoDup, List.NoDup_filter.
    by apply NoDup_ListNoDup.
Qed.

Lemma last_logBuffer_log message type st :
  last (logBuffer (log message type st)) = Some (mkLog type message).
Proof.
  destruct (logBuffer_log_suffix message type st (logBuffer st) [])
    as [pre ->]; [by rewrite app_nil_r|unfold MAX_LOG_ENTRIES; simpl; lia|].
  simpl. by rewrite last_snoc.
Qed.

(** X18. A load whose scan fails keeps what was there: the inventory, the
    connection summary and the selection are unchanged and nothing is
    cached; the error is the last entry of the log, with type [error];
    [isLoading] is false again and the status command is not run. *)
Theorem scan_failure_keeps_inventory env st t msg :
  isLoading st = false →
  (PerformanceCache.get cacheKey (now_get env) (cache st)).1 = None →
  scanDirectory env (migrationsDir st) = (t, Err msg) →
  let st' := (loadMigrations env st).1 in
  migrations st' = migrations st
  ∧ dbInfo st' = dbInfo st
  ∧ selectedIndex st' = selectedIndex st
  ∧ cache st' !! cacheKey = None
  ∧ isLoading st' = false
  ∧ last (logBuffer st') = Some (mkLog error (str "Error loading migrations: " ++ msg))
  ∧ (loadMigrations env st).2 = t.
Proof.
  intros Hl Hmiss Hscan st'. unfold st', loadMigrations.
  rewrite loadBegin_miss by done.
  rewrite (loadRun_failed env _ t msg) by exact Hscan. cbn [fst snd].
  repeat split.
  - simpl. destruct (get_cases cacheKey (now_get env) (cache st))
      as [[Hn Hg]|[(e & _ & _ & Hg)|(e & _ & _ & Hg)]]; rewrite Hg in Hmiss |- *; simpl.
    + exact Hn.
    + apply lookup_delete_eq.
    + discriminate.
  - apply last_logBuffer_log.
Qed.

Lemma migrationsDir_loadMigrations env st :
  migrationsDir (loadMigrations env st).1 = migrationsDir st.
Proof.
  unfold loadMigrations, loadBegin. destruct (isLoading st); [reflexivity|].
  destruct (PerformanceCache.get cacheKey (now_get env) (cache st)) as [[ms|] c].
  - cbn [fst]. by rewrite updateMigrationsList_eq.
  - unfold loadRun. destruct (scanDirectory env _) as [t [ms|msg]]; [|reflexivity].
    destruct (exec_showStatus env); cbn [fst];
      match goal with
      | |- context [updateMigrationsList ?s] => rewrite (updateMigrationsList_eq s)
      end; reflexivity.
Qed.

Lemma scanDirectory_trace_head env dir :
  head (scanDirectory env dir).1 = Some (EvAccess dir).
Proof.
  unfold scanDirectory, mbind, IO_bind, call.
  destruct (fs_access env); simpl.
  - destruct (fs_readdir env); simpl; [|reflexivity].
    by destruct (scanFiles env dir _) as [? [?|?]].
  - destruct (fs_mkdir env); simpl; [|reflexivity].
    destruct (fs_readdir env); simpl; [|reflexivity].
    by destruct (scanFiles env dir _) as [? [?|?]].
Qed.

Lemma loadRun_trace_head env st :
  head (loadRun env st).2 = Some (EvAccess (migrationsDir st)).
Proof.
  unfold loadRun. pose proof (scanDirectory_trace_head env (migrationsDir st)) as Hhead.
  destruct (scanDirectory env (migrationsDir st)) as [t [ms|msg]]; [|exact Hhead].
  destruct (exec_showStatus env); cbn [snd]; by destruct t.
Qed.

(** X19. Two loads in a row: after a load that scanned the directory, a
    load at most 60000 ms after the inventory was cached makes no outside
    call and leaves the inventory and the summary as they are; a load
    later than that goes back to the directory. *)
Theorem second_load_within_ttl_is_cached env env2 st t ms :
  isLoading st = false →
  (PerformanceCache.get cacheKey (now_get env) (cache st)).1 = None →
  scanDirectory env (migrationsDir st) = (t, Ok ms) →
  let st1 := (loadMigrations env st).1 in
  (now_get env2 - now_set env <= 60000 →
   (loadMigrations env2 st1).2 = []
   ∧ migrations (loadMigrations env2 st1).1 = migrations st1
   ∧ dbInfo (loadMigrations env2 st1).1 = dbInfo st1)
  ∧ (now_get env2 - now_set env > 60000 →
     head (loadMigrations env2 st1).2 = Some (EvAccess (migrationsDir st))).
Proof.
  intros Hl Hmiss Hscan st1.
  destruct (loadMigrations_fresh env st t ms Hl Hmiss Hscan)
    as (Hm & _ & Hc & Hload & _).
  fold st1 in Hm, Hc, Hload.
  assert (cache st1 !! cacheKey
          = Some (PerformanceCache.mkEntry (reconciled ms (exec_showStatus env))
                    (now_set env) 60000)) as He.
  { rewrite Hc. unfold PerformanceCache.set. by rewrite lookup_insert_eq. }
  assert (migrationsDir st1 = migrationsDir st) as Hdir
    by apply migrationsDir_loadMigrations.
  split.
  - intros Hsoon. unfold loadMigrations.
    rewrite (loadBegin_hit _ _ _ Hload He) by (simpl; lia). cbn [fst snd].
    by rewrite migrations_updateMigrationsList, dbInfo_updateMigrationsList, Hm.
  - intros Hlate. unfold loadMigrations.
    rewrite loadBegin_miss; [|exact Hload|].
    + rewrite loadRun_trace_head. do 2 f_equal. exact Hdir.
    + unfold PerformanceCache.get. rewrite He. simpl.
      destruct (Z.gtb_spec (now_get env2 - now_set env) 60000); [done|lia].
Qed.
End ScanMore.

(** ** Timestamps from file names *)

Section NumeralFacts.
Context `{Host}.









End NumeralFacts.


(** ** The matcher against what a pattern matches *)

Section MatcherFacts.

Lemma star_sound {R} p s (k : jsstring → option R) x :
  star p s k = Some x →
  ∃ pre s', s = pre ++ s' ∧ Forall (fun c => p c = true) pre ∧ k s' = Some x.
Proof.
  revert x. induction s as [|c s IH]; intros x; simpl.
  - intros Hk. by exists [], [].
  - destruct (p c) eqn:Hc.
    + destruct (star p s k) as [y|] eqn:Hstar.
      * intros [= <-]. destruct (IH y eq_refl) as (pre & s' & -> & Hpre & Hk).
        exists (c :: pre), s'. split; [done|]. split; [by constructor|done].
      * intros Hk. by exists [], (c :: s).
    + intros Hk. by exists [], (c :: s).
Qed.

(** Every result of the matcher comes from a match of the pattern. *)
Lemma run_sound {R} r s cap (k : jsstring → option jsstring → option R) x :
  run r s cap k = Some x →
  ∃ s' cap', matches r s cap s' cap' ∧ k s' cap' = Some x.
Proof.
  revert s cap k x. induction r as [c|p|r1 IH1 r2 IH2|r1 IH1 r2 IH2|p|p|r IH|];
    intros s cap k x; cbn [run].
  - destruct s as [|y s]; [discriminate|].
    destruct (N.eqb_spec y c) as [->|]; [|discriminate].
    intros Hk. exists s, cap. split; [constructor|done].
  - destruct s as [|y s]; [discriminate|].
    destruct (p y) eqn:Hp; [|discriminate].
    intros Hk. exists s, cap. split; [by constructor|done].
  - intros Hrun. apply IH1 in Hrun as (s1 & cap1 & Hm1 & Hrun).
    apply IH2 in Hrun as (s2 & cap2 & Hm2 & Hk).
    exists s2, cap2. split; [by econstructor|done].
  - destruct (run r1 s cap k) as [y|] eqn:Hleft.
    + intros [= <-]. apply IH1 in Hleft as (s' & cap' & Hm & Hk).
      exists s', cap'. split; [by apply matches_or_left|done].
    + intros Hright. apply IH2 in Hright as (s' & cap' & Hm & Hk).
      exists s', cap'. split; [by apply matches_or_right|done].
  - intros Hstar. apply star_sound in Hstar as (pre & s' & -> & Hpre & Hk).
    exists s', cap. split; [by constructor|done].
  - destruct s as [|y s]; [discriminate|].
    destruct (p y) eqn:Hp; [|discriminate].
    intros Hstar. apply star_sound in Hstar as (pre & s' & -> & Hpre & Hk).
    exists s', cap. split; [|done].
    apply (matches_plus p (y :: pre)); [by constructor|done].
  - intros Hrun. apply IH in Hrun as (s' & cap' & Hm & Hk).
    eexists _, _. split; [exact (matches_group _ _ _ _ _ Hm)|exact Hk].
  - destruct s; [|discriminate]. intros Hk. exists [], cap. split; [constructor|done].
Qed.

(** A match consumes a prefix. *)
Lemma matches_prefix r s cap s' cap' :
  matches r s cap s' cap' → ∃ pre, s = pre ++ s'.
Proof.
  induction 1 as [c s cap|p x s cap Hp|r1 r2 s s1 s2 cap cap1 cap2 _ [p1 ->] _ [p2 ->]
                 |r1 r2 s s' cap cap' _ IH|r1 r2 s s' cap cap' _ IH
                 |p pre s cap _|p pre s cap _ _|r s s' cap cap' _ IH|cap].
  - by exists [c].
  - by exists [x].
  - exists (p1 ++ p2). by rewrite app_assoc.
  - exact IH.
  - exact IH.
  - by exists pre.
  - by exists pre.
  - exact IH.
  - by exists [].
Qed.

Lemma take_consumed (pre s' : jsstring) :
  take (length (pre ++ s') - length s') (pre ++ s') = pre.
Proof.
  rewrite length_app. replace (length pre + length s' - length s')%nat
    with (length pre) by lia. apply take_app_length.
Qed.

(** The leftmost match starts somewhere in the string. *)
Lemma search_sound r i s m :
  search r i s = Some m →
  ∃ a s0 s' cap, s = a ++ s0 ∧ matches r s0 None s' cap
                 ∧ m = mkMatch (i + length a) s' cap.
Proof.
  revert i. induction s as [|c s IH]; intros i; rewrite search_unfold.
  - destruct (run r [] None _) as [m'|] eqn:Hrun; [|discriminate].
    intros [= <-]. apply run_sound in Hrun as (s' & cap & Hm & [= <-]).
    exists [], [], s', cap. simpl. by rewrite Nat.add_0_r.
  - destruct (run r (c :: s) None _) as [m'|] eqn:Hrun.
    + intros [= <-]. apply run_sound in Hrun as (s' & cap & Hm & [= <-]).
      exists [], (c :: s), s', cap. simpl. by rewrite Nat.add_0_r.
    + intros Hs. apply IH in Hs as (a & s0 & s' & cap & -> & Hm & ->).
      exists (c :: a), s0, s', cap. simpl. split; [done|]. split; [done|].
      f_equal. lia.
Qed.

(** Cutting matches out of a string leaves code units of the string. *)
Lemma removeAllFrom_incl r skip s c :
  In c (removeAllFrom r skip s) → In c s.
Proof.
  revert skip. induction s as [|x s IH]; intros skip; simpl; [done|].
  destruct skip as [|n].
  - destruct (matchAt r (x :: s)) as [m|].
    + destruct (_ - _)%nat.
      * simpl. intros [->|Hin]; [by left|right; by eapply IH].
      * intros Hin. right. by eapply IH.
    + simpl. intros [->|Hin]; [by left|right; by eapply IH].
  - intros Hin. right. by eapply IH.
Qed.
End MatcherFacts.

(** ** More on reconciliation *)

Section ReconcileMore.
Context `{Host}.

Lemma matches_seq_inv r1 r2 s cap s' cap' :
  matches (Seq r1 r2) s cap s' cap' →
  ∃ s1 cap1, matches r1 s cap s1 cap1 ∧ matches r2 s1 cap1 s' cap'.
Proof. inversion 1; eauto. Qed.

Lemma matches_or_inv r1 r2 s cap s' cap' :
  matches (Or r1 r2) s cap s' cap' →
  matches r1 s cap s' cap' ∨ matches r2 s cap s' cap'.
Proof. inversion 1; eauto. Qed.

Lemma matches_char_inv c s cap s' cap' :
  matches (Char c) s cap s' cap' → s = c :: s' ∧ cap' = cap.
Proof. inversion 1; eauto. Qed.

Lemma matches_star_inv p s cap s' cap' :
  matches (Star p) s cap s' cap' →
  ∃ pre, s = pre ++ s' ∧ Forall (fun c => p c = true) pre ∧ cap' = cap.
Proof. inversion 1; eauto. Qed.

Lemma matches_plus_inv p s cap s' cap' :
  matches (Plus p) s cap s' cap' →
  ∃ pre, s = pre ++ s' ∧ Forall (fun c => p c = true) pre ∧ pre ≠ [] ∧ cap' = cap.
Proof. inversion 1; eauto 6. Qed.

Lemma matches_group_inv r s cap s' cap2 :
  matches (Group r) s cap s' cap2 →
  ∃ cap1, matches r s cap s' cap1 ∧ cap2 = Some (take (length s - length s') s).
Proof. inversion 1; eauto. Qed.

Lemma matches_reApplied s0 s' cap :
  matches reApplied s0 None s' cap →
  ∃ marker ws1 ordinal ws2 g,
    s0 = marker ++ ws1 ++ ordinal ++ ws2 ++ g ++ s'
    ∧ (marker = str "[X]" ∨ marker = [checkMark])
    ∧ Forall (fun c => isSpace c = true) ws1
    ∧ Forall (fun c => isDigit c = true) ordinal ∧ ordinal ≠ []
    ∧ Forall (fun c => isSpace c = true) ws2
    ∧ Forall (fun c => isNonSpace c = true) g ∧ g ≠ []
    ∧ cap = Some g.
Proof.
  unfold reApplied. intros Hm.
  apply matches_seq_inv in Hm as (s1 & c1 & Hmark & Hm).
  apply matches_seq_inv in Hm as (s2 & c2 & Hws1 & Hm).
  apply matches_seq_inv in Hm as (s3 & c3 & Hord & Hm).
  apply matches_seq_inv in Hm as (s4 & c4 & Hws2 & Hm).
  apply matches_group_inv in Hm as (c5 & Hname & ->).
  apply matches_star_inv in Hws1 as (ws1 & -> & Hall1 & ->).
  apply matches_plus_inv in Hord as (ordinal & -> & Hall2 & Hne2 & ->).
  apply matches_star_inv in Hws2 as (ws2 & -> & Hall3 & ->).
  apply matches_plus_inv in Hname as (g & -> & Hall4 & Hne4 & ->).
  rewrite take_consumed.
  assert (∃ marker, s0 = marker ++ ws1 ++ ordinal ++ ws2 ++ g ++ s'
                    ∧ (marker = str "[X]" ∨ marker = [checkMark])) as (marker & -> & Hmarker).
  { apply matches_or_inv in Hmark as [Hleft|Hright].
    - apply matches_seq_inv in Hleft as (sa & ca & Ha & Hleft).
      apply matches_seq_inv in Hleft as (sb & cb & Hb & Hc).
      apply matches_char_inv in Ha as [-> _]. apply matches_char_inv in Hb as [-> _].
      apply matches_char_inv in Hc as [-> _].
      exists (str "[X]"). split; [reflexivity|by left].
    - apply matches_char_inv in Hright as [-> _].
      exists [checkMark]. split; [reflexivity|by right]. }
  exists marker, ws1, ordinal, ws2, g. repeat split; done.
Qed.

(** X21. The shape of every applied name: it comes from a line of the
    output in which a marker ([[X]] or the check mark) is followed by
    optional white space, an ordinal of one or more digits, optional white
    space and a run [g] of one or more code units that are not white
    space; the name is [g] with the colour codes cut out, and holds no
    white space. *)
Theorem applied_name_format output tok :
  In tok (parseAppliedMigrations output) →
  ∃ line a marker ws1 ordinal ws2 g rest,
    In line (split 10 output)
    ∧ line = a ++ marker ++ ws1 ++ ordinal ++ ws2 ++ g ++ rest
    ∧ (marker = str "[X]" ∨ marker = [checkMark])
    ∧ Forall (fun c => isSpace c = true) ws1
    ∧ Forall (fun c => isDigit c = true) ordinal ∧ ordinal ≠ []
    ∧ Forall (fun c => isSpace c = true) ws2
    ∧ Forall (fun c => isSpace c = false) g ∧ g ≠ []
    ∧ tok = removeAll reAnsi g
    ∧ Forall (fun c => isSpace c = false) tok.
Proof.
  unfold parseAppliedMigrations. rewrite in_flat_map.
  intros (line & Hline & Htok). unfold parseAppliedLine in Htok.
  destruct (_ || _); [|done].
  destruct (search reApplied 0 line) as [m|] eqn:Hsearch; [|done].
  apply search_sound in Hsearch as (a & s0 & s' & cap & -> & Hm & ->).
  apply matches_reApplied in Hm
    as (marker & ws1 & ordinal & ws2 & g & -> & Hmarker & H1 & H2 & H3 & H4 & H5 & H6 & ->).
  simpl in Htok. destruct Htok as [<-|[]].
  assert (Forall (fun c => isSpace c = false) g) as Hg.
  { eapply Forall_impl; [exact H5|]. intros c Hc. unfold isNonSpace in Hc.
    by destruct (isSpace c). }
  exists (a ++ marker ++ ws1 ++ ordinal ++ ws2 ++ g ++ s'), a, marker, ws1, ordinal, ws2, g, s'.
  repeat split; try done.
  apply List.Forall_forall. intros c Hc. apply removeAllFrom_incl in Hc.
  rewrite List.Forall_forall in Hg. by apply Hg.
Qed.

Lemma split_pieces sep s :
  ∃ l ls, split sep s = l :: ls
          ∧ (∃ b, s = l ++ b)
          ∧ ∀ line, In line ls → ∃ a b, s = a ++ line ++ b.
Proof.
  induction s as [|c s (l & ls & Hs & [b Hb] & Hrest)]; simpl.
  - exists [], []. split; [done|]. split; [by exists []|done].
  - destruct (c =? sep)%N.
    + exists [], (split sep s). split; [done|]. split; [by exists (c :: s)|].
      rewrite Hs. intros line [<-|Hin].
      * exists [c], b. by rewrite Hb.
      * destruct (Hrest line Hin) as (a & b' & ->). by exists (c :: a), b'.
    + rewrite Hs. exists (c :: l), ls. split; [done|]. split; [exists b; by rewrite Hb|].
      intros line Hin. destruct (Hrest line Hin) as (a & b' & Hab).
      exists (c :: a), b'. rewrite Hab at 1. done.
Qed.

Lemma split_In_piece sep s line :
  In line (split sep s) → ∃ a b, s = a ++ line ++ b.
Proof.
  destruct (split_pieces sep s) as (l & ls & -> & [b Hb] & Hrest).
  intros [<-|Hin]; [by exists [], b|by apply Hrest].
Qed.

Lemma includes_piece s line p :
  In line (split 10 s) → includes line p = true → includes s p = true.
Proof.
  intros Hin Hinc. apply split_In_piece in Hin as (a & b & ->).
  apply includes_spec in Hinc as (a' & b' & ->). apply includes_spec.
  exists (a ++ a'), (b' ++ b). by rewrite <- !app_assoc.
Qed.

(** An output that holds neither marker names no applied migration. *)
Lemma parseAppliedMigrations_unmarked output :
  includes output [checkMark] = false →
  includes output (str "[X]") = false →
  parseAppliedMigrations output = [].
Proof.
  intros Hcheck Hx. unfold parseAppliedMigrations.
  assert (∀ line, In line (split 10 output) → parseAppliedLine line = []) as Hall.
  { intros line Hin. unfold parseAppliedLine.
    destruct (includes line [checkMark]) eqn:H1.
    { rewrite (includes_piece _ _ _ Hin H1) in Hcheck. discriminate. }
    destruct (includes line (str "[X]")) eqn:H2; [|reflexivity].
    rewrite (includes_piece _ _ _ Hin H2) in Hx. discriminate. }
  induction (split 10 output) as [|line lines IH]; [reflexivity|]. simpl.
  rewrite (Hall line) by (by left). simpl. apply IH. intros l Hl. apply Hall. by right.
Qed.

Lemma reconcile_nil ms : reconcile [] ms = ms.
Proof. unfold reconcile, isApplied. simpl. apply map_id. Qed.

(** X22. When the status command succeeds but its output holds neither
    marker (an empty output, for one), the load stores the scanned
    records, all Pending, with [connected] true and [pendingCount] equal
    to [migrationsCount]. *)
Theorem unmarked_output_leaves_all_pending env st t ms output :
  isLoading st = false →
  (PerformanceCache.get cacheKey (now_get env) (cache st)).1 = None →
  scanDirectory env (migrationsDir st) = (t, Ok ms) →
  exec_showStatus env = Ok output →
  includes output [checkMark] = false →
  includes output (str "[X]") = false →
  let st' := (loadMigrations env st).1 in
  migrations st' = ms
  ∧ Forall (fun m => status m = pending) (migrations st')
  ∧ connected (dbInfo st') = true
  ∧ pendingCount (dbInfo st') = migrationsCount (dbInfo st').
Proof.
  intros Hl Hmiss Hscan Hexec Hcheck Hx st'.
  destruct (loadMigrations_fresh env st t ms Hl Hmiss Hscan) as (Hm & Hd & _).
  fold st' in Hm, Hd. rewrite Hexec in Hm, Hd. simpl in Hm, Hd.
  rewrite parseAppliedMigrations_unmarked, reconcile_nil in Hm, Hd by done.
  assert (Forall (fun m => status m = pending) ms) as Hpending.
  { apply scanDirectory_Ok in Hscan as [Hsc _].
    eapply Forall_impl; [exact Hsc|]. by intros m [? _]. }
  rewrite Hm, Hd. simpl. repeat split; try done.
  by apply countPending_all_pending.
Qed.

Lemma isApplied_same_run toks m1 m2 :
  leadingDigitRun (name m1) = leadingDigitRun (name m2) →
  isApplied toks m1 = isApplied toks m2.
Proof.
  intros Hrun. pose proof (isApplied_true toks m1) as H1.
  pose proof (isApplied_true toks m2) as H2. rewrite Hrun in H1.
  destruct (isApplied toks m1), (isApplied toks m2); try reflexivity.
  - symmetry. exact (proj2 H2 (proj1 H1 eq_refl)).
  - exact (proj2 H1 (proj1 H2 eq_refl)).
Qed.

Lemma isApplied_undated toks m :
  leadingDigitRun (name m) = None → isApplied toks m = false.
Proof.
  intros Hnone. destruct (isApplied toks m) eqn:Happ; [|reflexivity].
  apply isApplied_true in Happ as (tok & d & _ & Hd & _). congruence.
Qed.

(** X23. After a load the status of a record depends on the leading
    digit run of its name alone: two records with the same leading digit
    run (a source file and its compiled twin) have the same status, and a
    record whose name does not begin with a digit is Pending whatever the
    status command printed. *)
Theorem status_depends_on_digit_run env st t ms :
  isLoading st = false →
  (PerformanceCache.get cacheKey (now_get env) (cache st)).1 = None →
  scanDirectory env (migrationsDir st) = (t, Ok ms) →
  let st' := (loadMigrations env st).1 in
  (∀ r1 r2, In r1 (migrations st') → In r2 (migrations st') →
     leadingDigitRun (name r1) = leadingDigitRun (name r2) → status r1 = status r2)
  ∧ (∀ r, In r (migrations st') → leadingDigitRun (name r) = None → status r = pending).
Proof.
  intros Hl Hmiss Hscan st'.
  destruct (loadMigrations_fresh env st t ms Hl Hmiss Hscan) as (Hm & _).
  fold st' in Hm. rewrite Hm.
  apply scanDirectory_Ok in Hscan as [Hsc _]. rewrite List.Forall_forall in Hsc.
  destruct (exec_showStatus env) as [out|msg]; simpl.
  - split.
    + intros r1 r2 Hr1 Hr2 Hrun.
      apply reconcile_In in Hr1 as (m1 & Hm1 & ->).
      apply reconcile_In in Hr2 as (m2 & Hm2 & ->).
      destruct (Hsc m1 Hm1) as [Hp1 _]. destruct (Hsc m2 Hm2) as [Hp2 _].
      assert (leadingDigitRun (name m1) = leadingDigitRun (name m2)) as Hrun'.
      { by destruct (isApplied _ m1), (isApplied _ m2). }
      rewrite (isApplied_same_run _ m1 m2 Hrun').
      destruct (isApplied _ m2); simpl; congruence.
    + intros r Hr Hnone. apply reconcile_In in Hr as (m & Hm' & ->).
      destruct (Hsc m Hm') as [Hp _].
      assert (leadingDigitRun (name m) = None) as Hnone'
        by (by destruct (isApplied _ m)).
      by rewrite (isApplied_undated _ m Hnone').
  - split.
    + intros r1 r2 Hr1 Hr2 _. destruct (Hsc r1 Hr1) as [-> _].
      by destruct (Hsc r2 Hr2) as [-> _].
    + intros r Hr _. by destruct (Hsc r Hr) as [? _].
Qed.
End ReconcileMore.

(** ** Mutation commands, selection and the filter ring *)

Section CommandMore.
Context `{Host}.

Lemma dropWhile_nil_iff p s : dropWhile p s = [] ↔ Forall (fun c => p c = true) s.
Proof.
  induction s as [|c s IH]; simpl; [by split|].
  destruct (p c) eqn:Hc.
  - rewrite IH. split; [by constructor|]. by inversion 1.
  - split; [done|]. inversion 1. congruence.
Qed.

Lemma dropWhile_head p s c r : dropWhile p s = c :: r → p c = false.
Proof.
  induction s as [|x s IH]; simpl; [done|].
  destruct (p x) eqn:Hx; [exact IH|]. by intros [= <- _].
Qed.

(** [s.trim()] is empty exactly when [s] is white space only. *)
Lemma trim_nil_iff s : trim s = [] ↔ Forall (fun c => isSpace c = true) s.
Proof.
  unfold trim. split.
  - intros Hnil. apply (f_equal (@rev N)) in Hnil. rewrite rev_involutive in Hnil.
    simpl in Hnil. apply dropWhile_nil_iff in Hnil.
    destruct (dropWhile isSpace s) as [|c r] eqn:Hdrop; [by apply dropWhile_nil_iff|].
    apply dropWhile_head in Hdrop. apply Forall_rev in Hnil. rewrite rev_involutive in Hnil.
    inversion Hnil. congruence.
  - intros Hall. by rewrite (proj2 (dropWhile_nil_iff _ _) Hall).
Qed.

Lemma truthy_trim_false s :
  Forall (fun c => isSpace c = true) s → truthy (trim s) = false.
Proof. intros Hall. by rewrite (proj2 (trim_nil_iff s) Hall). Qed.

Lemma truthy_trim_true s :
  ¬ Forall (fun c => isSpace c = true) s → truthy (trim s) = true.
Proof.
  intros Hnot. destruct (trim s) eqn:Htrim; [|reflexivity].
  exfalso. by apply Hnot, trim_nil_iff.
Qed.

Lemma executeCommand_config command description outcome st :
  migrationsDir (executeCommand command description outcome st).1 = migrationsDir st
  ∧ commands (executeCommand command description outcome st).1 = commands st
  ∧ selectedIndex (executeCommand command description outcome st).1 = selectedIndex st
  ∧ (executeCommand command description outcome st).2 = [EvSpawn command].
Proof.
  unfold executeCommand. cbn [fst snd].
  destruct outcome as [[[|n]|] out err|msg];
    repeat match goal with |- context [if ?b then _ else _] => destruct b end;
    repeat split; reflexivity.
Qed.

(** A command followed by what the mutation handlers do next. *)
Lemma command_then_refresh command description outcome env probe st t ms :
  isLoading st = false →
  scanDirectory env (migrationsDir st) = (t, Ok ms) →
  let st1 := (executeCommand command description outcome st).1 in
  migrations (invalidateAndRefresh env probe st1).1 = reconciled ms (exec_showStatus env)
  ∧ [EvSpawn command] ++ (invalidateAndRefresh env probe st1).2
    = EvSpawn command
      :: t ++ [EvExecSync (showStatus (commands st)) 10000;
               EvExecSync (showStatus (commands st)) 5000].
Proof.
  intros Hl Hscan st1.
  destruct (executeCommand_frame command description outcome st) as (_ & _ & Hl1 & _).
  destruct (executeCommand_config command description outcome st) as (Hdir & Hcmd & _).
  fold st1 in Hl1, Hdir, Hcmd. unfold invalidateAndRefresh.
  set (st2 := withCache _ st1).
  assert (isLoading st2 = false) as Hl2 by (unfold st2; simpl; congruence).
  assert (scanDirectory env (migrationsDir st2) = (t, Ok ms)) as Hscan2
    by (unfold st2; simpl; by rewrite Hdir).
  destruct (refreshData_fresh false env probe st2 t ms Hl2 Hscan2)
    as (Hm & _ & _ & _ & _ & Ht).
  rewrite Hm, Ht. split; [reflexivity|]. simpl. unfold st2. simpl. by rewrite Hcmd.
Qed.

(** X24. Every mutation is followed by a reload from the directory,
    whether the command succeeded or not: after apply-all, revert-last,
    create or generate (confirmed, name not blank, no load in flight) the
    inventory is the one just scanned and reconciled, and the outside calls
    are the command, the scan, the status command and the connectivity
    probe, in this order. *)
Theorem mutation_always_reloads outcome env probe st t ms name :
  isLoading st = false →
  scanDirectory env (migrationsDir st) = (t, Ok ms) →
  ¬ Forall (fun c => isSpace c = true) name →
  let reloaded (command : jsstring) (r : Shell * list IOEvent) :=
    migrations r.1 = reconciled ms (exec_showStatus env)
    ∧ r.2 = EvSpawn command
            :: t ++ [EvExecSync (showStatus (commands st)) 10000;
                     EvExecSync (showStatus (commands st)) 5000] in
  reloaded (migrateUp (commands st)) (applyMigrations true outcome env probe st)
  ∧ reloaded (migrateDown (commands st)) (revertMigration true outcome env probe st)
  ∧ reloaded (str "pnpm run migration:create migrations/" ++ name)
      (createMigration name outcome env probe st)
  ∧ reloaded (str "pnpm run migration:generate migrations/" ++ name)
      (generateMigration name outcome env probe st).
Proof.
  intros Hl Hscan Hname reloaded.
  assert (∀ command description,
            reloaded command
              (let '(st1, t1) := executeCommand command description outcome st in
               let '(st2, t2) := invalidateAndRefresh env probe st1 in
               (st2, t1 ++ t2))) as Hgen.
  { intros command description.
    pose proof (command_then_refresh command description outcome env probe st t ms Hl Hscan)
      as [Hm Ht].
    destruct (executeCommand_config command description outcome st) as (_ & _ & _ & Hspawn).
    destruct (executeCommand command description outcome st) as [st1 t1].
    cbn [fst snd] in Hm, Ht, Hspawn. subst t1.
    destruct (invalidateAndRefresh env probe st1) as [st2 t2].
    cbn [fst snd] in Hm, Ht. split; [exact Hm|exact Ht]. }
  unfold applyMigrations, revertMigration, createMigration, generateMigration.
  rewrite (truthy_trim_true name Hname). repeat split; apply Hgen.
Qed.

(** X25. Nothing is run for a blank name or an unconfirmed action: when
    the submitted name is white space only, create and generate make no
    outside call and leave the shell as it is, and so do apply-all and
    revert-last when the confirmation is declined. Any other name is put
    in the command as typed, after [migrations/]. *)
Theorem blank_name_runs_nothing name outcome env probe st :
  (Forall (fun c => isSpace c = true) name →
   createMigration name outcome env probe st = (st, [])
   ∧ generateMigration name outcome env probe st = (st, []))
  ∧ applyMigrations false outcome env probe st = (st, [])
  ∧ revertMigration false outcome env probe st = (st, [])
  ∧ (¬ Forall (fun c => isSpace c = true) name →
     head (createMigration name outcome env probe st).2
     = Some (EvSpawn (str "pnpm run migration:create migrations/" ++ name))
     ∧ head (generateMigration name outcome env probe st).2
       = Some (EvSpawn (str "pnpm run migration:generate migrations/" ++ name))).
Proof.
  split; [|split; [reflexivity|split; [reflexivity|]]].
  - intros Hblank. unfold createMigration, generateMigration.
    by rewrite (truthy_trim_false name Hblank).
  - intros Hname. split.
    + apply createMigration_command. by apply truthy_trim_true.
    + apply generateMigration_command. by apply truthy_trim_true.
Qed.

(** X26. [executeCommand] starts exactly one child process and changes
    nothing but the log: inventory, cache, connection summary and
    selection are as before, whatever the outcome. Its last log entry has
    type [error] exactly when the process did not exit with code 0 (a
    spawn error counts as a failure). *)
Theorem execute_command_only_logs command description outcome st :
  let st' := (executeCommand command description outcome st).1 in
  (executeCommand command description outcome st).2 = [EvSpawn command]
  ∧ migrations st' = migrations st
  ∧ cache st' = cache st
  ∧ dbInfo st' = dbInfo st
  ∧ selectedIndex st' = selectedIndex st
  ∧ ∃ entry, last (logBuffer st') = Some entry
             ∧ (log_type entry = error ↔ exitedZero outcome = false).
Proof.
  intros st'.
  destruct (executeCommand_frame command description outcome st) as (Hm & Hc & _ & Hd).
  destruct (executeCommand_config command description outcome st) as (_ & _ & Hs & Ht).
  split; [exact Ht|]. split; [exact Hm|]. split; [exact Hc|]. split; [exact Hd|].
  split; [exact Hs|].
  unfold st', executeCommand. cbn [fst].
  destruct outcome as [[[|n]|] out err|msg]; cbn [exitedZero];
    repeat match goal with |- context [if ?b then _ else _] => destruct b end;
    rewrite last_logBuffer_log; eexists; (split; [reflexivity|]); simpl; split; done.
Qed.

(** X27. [updateMigrationsList] is idempotent, and it leaves a selection
    that is not negative on a record of the filtered list whenever that
    list is not empty. *)
Theorem selection_valid_after_update st :
  updateMigrationsList (updateMigrationsList st) = updateMigrationsList st
  ∧ (0 <= selectedIndex st →
     0 <= selectedIndex (updateMigrationsList st)
     ∧ (getFilteredMigrations st ≠ [] →
        is_Some (getFilteredMigrations (updateMigrationsList st)
                   !! Z.to_nat (selectedIndex (updateMigrationsList st))))).
Proof.
  split.
  - assert (selectedIndex (updateMigrationsList (updateMigrationsList st))
            = selectedIndex (updateMigrationsList st)) as Hsame.
    { rewrite (selectedIndex_updateMigrationsList (updateMigrationsList st)),
        getFilteredMigrations_updateMigrationsList, selectedIndex_updateMigrationsList.
      destruct (Z.geb_spec (selectedIndex st)
                  (Z.of_nat (length (getFilteredMigrations st)))) as [Hge|Hlt].
      - destruct (Z.geb_spec (Z.max 0 (Z.of_nat (length (getFilteredMigrations st)) - 1))
                    (Z.of_nat (length (getFilteredMigrations st)))); lia.
      - destruct (Z.geb_spec (selectedIndex st)
                    (Z.of_nat (length (getFilteredMigrations st)))); lia. }
    rewrite (updateMigrationsList_eq (updateMigrationsList st)), Hsame.
    remember (updateMigrationsList st) as u eqn:Heq.
    assert (u = withSelectedIndex (selectedIndex u) st) as Hu
      by (rewrite Heq; apply updateMigrationsList_eq).
    rewrite Hu. reflexivity.
  - intros Hpos. rewrite getFilteredMigrations_updateMigrationsList,
      selectedIndex_updateMigrationsList.
    destruct (Z.geb_spec (selectedIndex st) (Z.of_nat (length (getFilteredMigrations st))));
      (split; [lia|]); intros Hne; apply lookup_lt_is_Some;
      destruct (getFilteredMigrations st); simpl in *; (done || lia).
Qed.

Lemma filterStatus_cycleFilter st :
  filterStatus (cycleFilter st) = nextFilter (filterStatus st).
Proof.
  unfold cycleFilter, applyFilters.
  change (filterStatus (log ?m ?t ?s)) with (filterStatus s).
  rewrite updateMigrationsList_eq. simpl. by destruct (filterStatus st) as [|[]].
Qed.

(** X28. The filter key walks the ring all, pending, applied, failed and
    back: each press changes the filter to the next of the ring, four
    presses bring back the filter the shell had, and no press changes the
    inventory. *)
Theorem filter_cycle_is_a_ring st :
  filterStatus (cycleFilter st) = nextFilter (filterStatus st)
  ∧ filterStatus (cycleFilter st) ≠ filterStatus st
  ∧ filterStatus (cycleFilter (cycleFilter (cycleFilter (cycleFilter st))))
    = filterStatus st
  ∧ migrations (cycleFilter st) = migrations st.
Proof.
  split; [apply filterStatus_cycleFilter|]. split; [|split].
  - rewrite filterStatus_cycleFilter. by destruct (filterStatus st) as [|[]].
  - rewrite !filterStatus_cycleFilter. by destruct (filterStatus st) as [|[]].
  - unfold cycleFilter, applyFilters.
    change (migrations (log ?m ?t ?s)) with (migrations s).
    by rewrite migrations_updateMigrationsList.
Qed.
End CommandMore.

(** ** The fingerprint *)

Section HashFacts.

Lemma toInt32_range z : - 2 ^ 31 <= Source.toInt32 z < 2 ^ 31.
Proof.
  unfold Source.toInt32.
  pose proof (Z.mod_pos_bound (z + 2 ^ 31) (2 ^ 32) ltac:(lia)). lia.
Qed.

Lemma toInt32_congruent z : ∃ k, Source.toInt32 z = z + 2 ^ 32 * k.
Proof.
  unfold Source.toInt32. exists (- ((z + 2 ^ 31) / 2 ^ 32)).
  pose proof (Z.div_mod (z + 2 ^ 31) (2 ^ 32) ltac:(lia)). lia.
Qed.

Lemma toInt32_shift z k : Source.toInt32 (z + 2 ^ 32 * k) = Source.toInt32 z.
Proof.
  unfold Source.toInt32. f_equal.
  replace (z + 2 ^ 32 * k + 2 ^ 31) with (z + 2 ^ 31 + k * 2 ^ 32) by lia.
  apply Z_mod_plus_full.
Qed.

Lemma hashStep_wraps h h' c :
  h = Source.toInt32 h' →
  Source.hashStep h c = Source.toInt32 (31 * h' + Z.of_N c).
Proof.
  intros ->. unfold Source.hashStep. rewrite Z.land_diag, Z.shiftl_mul_pow2 by lia.
  destruct (toInt32_congruent h') as [k1 Hk1].
  remember (Source.toInt32 h') as a eqn:Ha. clear Ha.
  destruct (toInt32_congruent a) as [k3 Hk3].
  remember (Source.toInt32 a) as b eqn:Hb. clear Hb.
  destruct (toInt32_congruent (b * 2 ^ 5)) as [k2 Hk2].
  remember (Source.toInt32 (b * 2 ^ 5)) as d eqn:Hd. clear Hd.
  replace (d - a + Z.of_N c)
    with (31 * h' + Z.of_N c + 2 ^ 32 * (32 * k3 + k2 + 31 * k1)) by lia.
  apply toInt32_shift.
Qed.

Lemma hashCode_from h h' content :
  h = Source.toInt32 h' →
  fold_left Source.hashStep content h
  = Source.toInt32 (fold_left (fun a c => 31 * a + Z.of_N c) content h').
Proof.
  revert h h'. induction content as [|c content IH]; intros h h' Hh; simpl; [done|].
  apply IH. by apply hashStep_wraps.
Qed.

(** X29. The fingerprint loop computes the hash with multiplier 31 of the
    code units of the content, wrapped to 32 bits: the value is the signed
    32-bit integer congruent to the hash computed without overflow, so its
    absolute value is at most 2^31; the empty content has fingerprint
    [0]. *)
Theorem hash_is_wrapped_polynomial content :
  Source.hashCode content = Source.toInt32 (polynomialHash content)
  ∧ - 2 ^ 31 <= Source.hashCode content < 2 ^ 31
  ∧ 0 <= Z.abs (Source.hashCode content) <= 2 ^ 31
  ∧ Source.generateHash [] = str "0".
Proof.
  assert (Source.hashCode content = Source.toInt32 (polynomialHash content)) as Heq
    by (by apply hashCode_from).
  split; [exact Heq|]. pose proof (toInt32_range (polynomialHash content)) as Hr.
  rewrite <- Heq in Hr. split; [exact Hr|]. split; [lia|reflexivity].
Qed.
End HashFacts.

(** The fingerprint of [abc]: 96354 = 0x17862. *)
Example generateHash_abc : Source.generateHash (str "abc") = str "17862".
Proof. reflexivity. Qed.

(** ** The description *)

Example extractDescription_comment :
  Source.extractDescription exampleContent = str "Add the users table".
Proof. reflexivity. Qed.

Example extractDescription_class :
  Source.extractDescription
    (str "export class AddUsers1700000000000 implements MigrationInterface {}")
  = str "Add Users".
Proof. reflexivity. Qed.

Example extractDescription_empty_comment :
  Source.extractDescription (str "/** */ export class A {}") = [].
Proof. reflexivity. Qed.

Section DescriptionFacts.

Lemma dropWhile_idem p s : dropWhile p (dropWhile p s) = dropWhile p s.
Proof.
  induction s as [|c s IH]; simpl; [done|].
  destruct (p c) eqn:Hc; [exact IH|]. simpl. by rewrite Hc.
Qed.

Lemma dropWhile_decompose p s :
  ∃ pre, s = pre ++ dropWhile p s ∧ Forall (fun c => p c = true) pre.
Proof.
  induction s as [|c s (pre & Hs & Hpre)]; simpl; [by exists []|].
  destruct (p c) eqn:Hc.
  - exists (c :: pre). split; [by rewrite Hs at 1|by constructor].
  - by exists [].
Qed.

Lemma dropWhile_fixed_head p c r : dropWhile p (c :: r) = c :: r → p c = false.
Proof.
  simpl. destruct (p c); [|done]. intros Heq.
  pose proof (length_dropWhile p r) as Hlen. rewrite Heq in Hlen. simpl in Hlen. lia.
Qed.

Lemma dropWhile_fixed_prefix p t u :
  dropWhile p (t ++ u) = t ++ u → t ≠ [] → dropWhile p t = t.
Proof.
  destruct t as [|c t]; [done|]. intros Hfix _.
  apply dropWhile_fixed_head in Hfix. simpl. by rewrite Hfix.
Qed.

(** [trim] is idempotent. *)
Lemma trim_idem s : trim (trim s) = trim s.
Proof.
  unfold trim.
  set (a := dropWhile isSpace s).
  destruct (dropWhile_decompose isSpace (rev a)) as (pre & Hrev & _).
  set (b := dropWhile isSpace (rev a)) in *.
  assert (dropWhile isSpace (rev b) = rev b) as Hfront.
  { destruct (rev b) as [|c t] eqn:Hb; [done|]. rewrite <- Hb.
    apply (dropWhile_fixed_prefix isSpace (rev b) (rev pre)); [|by rewrite Hb].
    rewrite <- rev_app_distr, <- Hrev, rev_involutive. apply dropWhile_idem. }
  rewrite Hfront, rev_involutive. unfold b. by rewrite dropWhile_idem.
Qed.

Lemma dropWhile_incl p s c : In c (dropWhile p s) → In c s.
Proof.
  destruct (dropWhile_decompose p s) as (pre & Hs & _). intros Hin.
  rewrite Hs. apply in_or_app. by right.
Qed.

Lemma trim_incl s c : In c (trim s) → In c s.
Proof.
  unfold trim. rewrite <- in_rev. intros Hin.
  apply dropWhile_incl in Hin. rewrite <- in_rev in Hin. by apply dropWhile_incl in Hin.
Qed.

(** No line of [s.split(sep)] holds the separator. *)
Lemma split_no_sep sep s line : In line (split sep s) → ¬ In sep line.
Proof.
  revert line. induction s as [|c s IH]; intros line; simpl.
  - intros [<-|[]]. by intros [].
  - destruct (N.eqb_spec c sep) as [->|Hne].
    + intros [<-|Hin]; [by intros []|by apply IH].
    + destruct (split sep s) as [|l ls] eqn:Hs.
      * intros [<-|[]]. intros [Heq|[]]. congruence.
      * intros [<-|Hin].
        -- intros [Heq|Hin]; [congruence|]. by apply (IH l); [left|].
        -- apply IH. by right.
Qed.

Lemma split_nonempty sep s : split sep s ≠ [].
Proof. destruct (split_pieces sep s) as (l & ls & -> & _). done. Qed.

Lemma replaceFirst_incl r s c : In c (replaceFirst r s) → In c s.
Proof.
  unfold replaceFirst. destruct (search r 0 s) as [m|] eqn:Hs; [|done].
  apply search_sound in Hs as (a & s0 & s' & cap & -> & Hm & ->). simpl.
  apply matches_prefix in Hm as [pre ->]. rewrite take_app_length.
  rewrite !in_app_iff. tauto.
Qed.

Lemma matches_litThen l r s cap s' cap' :
  matches (Source.litThen l r) s cap s' cap' →
  ∃ s1, s = l ++ s1 ∧ matches r s1 cap s' cap'.
Proof.
  revert s cap. induction l as [|c l IH]; intros s cap; simpl.
  - intros Hm. by exists s.
  - intros Hm. apply matches_seq_inv in Hm as (s1 & cap1 & Hc & Hm).
    apply matches_char_inv in Hc as [-> ->].
    apply IH in Hm as (s2 & -> & Hm). by exists s2.
Qed.

Lemma search_reClass content g :
  group1 (search Source.reClass 0 content) = Some g →
  Forall (fun c => Source.isWord c = true) g
  ∧ includes content (str "export") = true.
Proof.
  destruct (search Source.reClass 0 content) as [m|] eqn:Hs; [|discriminate].
  apply search_sound in Hs as (a & s0 & s' & cap & -> & Hm & ->). simpl.
  intros ->. unfold Source.reClass in Hm.
  apply matches_litThen in Hm as (s1 & -> & Hm).
  apply matches_seq_inv in Hm as (s2 & c2 & Hws & Hm).
  apply matches_plus_inv in Hws as (ws & -> & _ & _ & ->).
  apply matches_litThen in Hm as (s3 & -> & Hm).
  apply matches_seq_inv in Hm as (s4 & c4 & Hws2 & Hm).
  apply matches_plus_inv in Hws2 as (ws2 & -> & _ & _ & ->).
  apply matches_group_inv in Hm as (c5 & Hname & Hg).
  apply matches_plus_inv in Hname as (name & -> & Hall & _ & _).
  rewrite take_consumed in Hg. injection Hg as ->. split; [exact Hall|].
  apply includes_spec. eexists a, _. reflexivity.
Qed.

Lemma blockComment_includes s g :
  Source.blockComment s = Some g → includes s (str "/**") = true.
Proof.
  induction s as [|c s IH].
  - simpl. discriminate.
  - intros Hb. apply includes_spec.
    change (Source.blockComment (c :: s)) with
      (match
          match matchAt Source.reOpen (c :: s) with
          | Some m =>
              match search Source.reClose 0 (m_rest m) with
              | Some m' => Some (take (m_index m') (m_rest m))
              | None => None
              end
          | None => None
          end
        with
        | Some g => Some g
        | None => Source.blockComment s
        end) in Hb.
    destruct (matchAt Source.reOpen (c :: s)) as [m|] eqn:Hopen.
    + unfold matchAt in Hopen. apply run_sound in Hopen as (s' & cap & Hm & _).
      unfold Source.reOpen in Hm.
      apply matches_seq_inv in Hm as (s1 & c1 & Ha & Hm).
      apply matches_seq_inv in Hm as (s2 & c2 & Hb' & Hc).
      apply matches_char_inv in Ha as [Ha _]. apply matches_char_inv in Hb' as [-> _].
      apply matches_char_inv in Hc as [-> _]. rewrite Ha.
      by exists [], s'.
    + apply IH, includes_spec in Hb as (a & b & ->). by exists (c :: a), b.
Qed.

(** X30. The description of a file never starts or ends with white space
    and never holds a line feed, so it fits on the line of the list; and a
    content in which neither [/**] nor [export] occurs is described as
    [Migration]. *)
Theorem description_is_one_trimmed_line content :
  trim (Source.extractDescription content) = Source.extractDescription content
  ∧ ¬ In 10%N (Source.extractDescription content)
  ∧ (includes content (str "/**") = false →
     includes content (str "export") = false →
     Source.extractDescription content = str "Migration").
Proof.
  unfold Source.extractDescription.
  destruct (Source.blockComment content) as [g|] eqn:Hcomment.
  - split; [apply trim_idem|]. split.
    + intros Hin. apply trim_incl in Hin.
      destruct (split 10 (trim (removeAll (Char 42) g))) as [|l ls] eqn:Hsplit;
        [by apply split_nonempty in Hsplit|].
      simpl in Hin. apply (split_no_sep 10 (trim (removeAll (Char 42) g)) l);
        [rewrite Hsplit; by left|exact Hin].
    + intros Hno. apply blockComment_includes in Hcomment. congruence.
  - destruct (group1 (search Source.reClass 0 content)) as [g|] eqn:Hclass.
    + apply search_reClass in Hclass as [Hword Hexport].
      split; [apply trim_idem|]. split.
      * intros Hin. apply trim_incl in Hin. unfold Source.spaceCapitals in Hin.
        apply in_flat_map in Hin as (c & Hc & Hin).
        apply replaceFirst_incl in Hc. rewrite List.Forall_forall in Hword.
        pose proof (Hword c Hc) as Hw.
        destruct (Source.isUpper c); simpl in Hin.
        -- destruct Hin as [Heq|[Heq|[]]]; [discriminate|]. subst c. discriminate.
        -- destruct Hin as [Heq|[]]. subst c. discriminate.
      * intros _ Hno. congruence.
    + split; [reflexivity|]. split; [|done].
      vm_compute. intuition discriminate.
Qed.
End DescriptionFacts.

(** * The further properties on examples *)

(** X13 on an example: the shell holds a fresh cached inventory of three
    files; a refresh of a directory that now holds the twins lists the
    twins. *)
Lemma refresh_bypasses_cache_witness :
  let r := @refreshData asciiHost true (exampleEnvAt 5000 twinFiles (Ok []))
             (Ok []) loadedShell in
  map name (migrations r.1) = [str "100-a.ts"; str "100-a.js"]
  ∧ connected (dbInfo r.1) = true.
Proof.
  intros r.
  edestruct (@refresh_bypasses_cache asciiHost true
               (exampleEnvAt 5000 twinFiles (Ok [])) (Ok []) loadedShell)
    as (Hm & Hc & _).
  - vm_compute. reflexivity.
  - vm_compute. reflexivity.
  - subst r. rewrite Hm, Hc. split; vm_compute; reflexivity.
Defined.

(** X14 on an example: a tick at 40 s reloads, a tick at 50 s does not. *)
Lemma auto_refresh_debounced_witness :
  let env := exampleEnvAt 40000 threeFiles (Ok threeFilesOutput) in
  let st1 := (@autoRefreshTick asciiHost 40000 env (Ok []) exampleShell).1 in
  @autoRefreshTick asciiHost 50000 env (Ok []) st1 = (st1, []).
Proof.
  intros env st1.
  edestruct (@auto_refresh_debounced asciiHost 40000 env (Ok []) exampleShell)
    as (_ & _ & Hidle).
  - reflexivity.
  - vm_compute. reflexivity.
  - vm_compute. reflexivity.
  - apply Hidle. vm_compute. discriminate.
Defined.

(** X15 on an example: [README.md] is listed but neither stat'ed nor
    read. *)
Lemma scan_reads_only_migration_files_witness :
  (@scanDirectory asciiHost (exampleEnv mixedFiles (Ok [])) (str "/app/migrations")).1
  = [EvAccess (str "/app/migrations"); EvReaddir (str "/app/migrations");
     EvStat (str "/app/migrations") (str "100-a.ts");
     EvReadFile (str "/app/migrations") (str "100-a.ts");
     EvStat (str "/app/migrations") (str "200-b.js");
     EvReadFile (str "/app/migrations") (str "200-b.js")].
Proof.
  destruct (@scanDirectory asciiHost (exampleEnv mixedFiles (Ok [])) (str "/app/migrations"))
    as [t [ms|msg]] eqn:Hscan; [|vm_compute in Hscan; discriminate].
  destruct (@scan_reads_only_migration_files asciiHost _ _ _ _ Hscan)
    as (files & Hfiles & ->).
  injection Hfiles as <-. reflexivity.
Defined.

(** X17 on an example. *)
Lemma scan_one_record_per_migration_file_witness :
  ∃ t ms, @scanDirectory asciiHost (exampleEnv mixedFiles (Ok [])) (str "/app/migrations")
          = (t, Ok ms)
          ∧ Permutation (map name ms) [str "100-a.ts"; str "200-b.js"]
          ∧ Forall (fun m => status m = pending) ms.
Proof.
  destruct (@scanDirectory asciiHost (exampleEnv mixedFiles (Ok [])) (str "/app/migrations"))
    as [t [ms|msg]] eqn:Hscan; [|vm_compute in Hscan; discriminate].
  exists t, ms. split; [reflexivity|].
  destruct (@scan_one_record_per_migration_file asciiHost _ _ _ _ Hscan)
    as (files & Hfiles & Hperm & Hpending & _).
  injection Hfiles as <-. split; [exact Hperm|exact Hpending].
Defined.

(** X18 on an example: the directory cannot be listed. *)
Lemma scan_failure_keeps_inventory_witness :
  let st' := (@loadMigrations asciiHost unreadableEnv exampleShell).1 in
  migrations st' = [] ∧ dbInfo st' = dbInfo exampleShell ∧ isLoading st' = false.
Proof.
  intros st'.
  edestruct (@scan_failure_keeps_inventory asciiHost unreadableEnv exampleShell)
    as (Hm & Hd & _ & _ & Hl & _).
  - reflexivity.
  - vm_compute. reflexivity.
  - vm_compute. reflexivity.
  - split; [exact Hm|]. split; [exact Hd|exact Hl].
Defined.

(** X19 on an example: a second load thirty seconds after the first. *)
Lemma second_load_within_ttl_is_cached_witness :
  (@loadMigrations asciiHost (exampleEnvAt 31000 [] (Err (str "Command failed")))
     loadedShell).2 = [].
Proof.
  edestruct (@second_load_within_ttl_is_cached asciiHost
               (exampleEnv threeFiles (Ok threeFilesOutput))
               (exampleEnvAt 31000 [] (Err (str "Command failed"))) exampleShell)
    as (Hsoon & _).
  - reflexivity.
  - vm_compute. reflexivity.
  - vm_compute. reflexivity.
  - apply Hsoon. vm_compute. discriminate.
Defined.

(** X21 on an example. *)
Lemma applied_name_format_witness :
  ∃ line a marker ws1 ordinal ws2 g rest,
    In line (split 10 classNameOutput)
    ∧ line = a ++ marker ++ ws1 ++ ordinal ++ ws2 ++ g ++ rest
    ∧ (marker = str "[X]" ∨ marker = [checkMark])
    ∧ Forall (fun c => isSpace c = true) ws1
    ∧ Forall (fun c => isDigit c = true) ordinal ∧ ordinal ≠ []
    ∧ Forall (fun c => isSpace c = true) ws2
    ∧ Forall (fun c => isSpace c = false) g ∧ g ≠ []
    ∧ str "Init100" = removeAll reAnsi g
    ∧ Forall (fun c => isSpace c = false) (str "Init100").
Proof.
  apply (applied_name_format classNameOutput (str "Init100")). vm_compute. by left.
Defined.

(** X22 on an example: the status command prints a sentence and no
    marker. *)
Lemma unmarked_output_leaves_all_pending_witness :
  let st' := (@loadMigrations asciiHost
                (exampleEnv threeFiles (Ok (str "No migrations are pending")))
                exampleShell).1 in
  Forall (fun m => status m = pending) (migrations st')
  ∧ connected (dbInfo st') = true.
Proof.
  intros st'.
  edestruct (@unmarked_output_leaves_all_pending asciiHost
               (exampleEnv threeFiles (Ok (str "No migrations are pending")))
               exampleShell)
    as (_ & Hp & Hc & _).
  - reflexivity.
  - vm_compute. reflexivity.
  - vm_compute. reflexivity.
  - reflexivity.
  - vm_compute. reflexivity.
  - vm_compute. reflexivity.
  - split; [exact Hp|exact Hc].
Defined.

(** X23 on an example: the twins have the same status. *)
Lemma status_depends_on_digit_run_witness :
  let st' := (@loadMigrations asciiHost (exampleEnv twinFiles (Ok classNameOutput))
                exampleShell).1 in
  Forall (fun r1 => Forall (fun r2 =>
      leadingDigitRun (name r1) = leadingDigitRun (name r2) → status r1 = status r2)
    (migrations st')) (migrations st').
Proof.
  intros st'.
  edestruct (@status_depends_on_digit_run asciiHost
               (exampleEnv twinFiles (Ok classNameOutput)) exampleShell)
    as (Hsame & _).
  - reflexivity.
  - vm_compute. reflexivity.
  - vm_compute. reflexivity.
  - apply List.Forall_forall. intros r1 H1.
    apply List.Forall_forall. intros r2 H2.
    exact (Hsame r1 r2 H1 H2).
Defined.

(** X24 on an example: apply-all fails with exit code 1 and the inventory
    is reloaded all the same. *)
Lemma mutation_always_reloads_witness :
  let r := @applyMigrations asciiHost true (Closed (Some 1%nat) [] (str "error"))
             (exampleEnv threeFiles (Ok threeFilesOutput)) (Ok []) exampleShell in
  map name (migrations r.1) = [str "100-a.ts"; str "200-b.js"; str "300-c.ts"]
  ∧ head r.2 = Some (EvSpawn (str "pnpm run migrate:up")).
Proof.
  intros r.
  destruct (@scanDirectory asciiHost (exampleEnv threeFiles (Ok threeFilesOutput))
              (migrationsDir exampleShell)) as [t [ms|msg]] eqn:Hscan;
    [|vm_compute in Hscan; discriminate].
  destruct (@mutation_always_reloads asciiHost (Closed (Some 1%nat) [] (str "error"))
              (exampleEnv threeFiles (Ok threeFilesOutput)) (Ok []) exampleShell
              t ms (str "AddUsers") eq_refl Hscan)
    as ((Hm & Ht) & _).
  - intros Hall. inversion Hall as [|c l Hc _]. vm_compute in Hc. discriminate.
  - subst r. rewrite Hm, Ht. vm_compute in Hscan. injection Hscan as <- <-.
    split; vm_compute; reflexivity.
Defined.
